(** * xen-dev-utils: integer number theory, periodic distance and combinations

    A shallow embedding of [src/index.ts] (floor division, the extended and
    the iterated Euclidean algorithm, circular difference and distance) and
    of [src/combinations.ts] (k-combinations of an array), followed by the
    properties the specification states about them.

    Numbers.  A TypeScript [number] is an IEEE double.  The embedding keeps
    the three special values the code can meet ([Infinity], [-Infinity],
    [NaN]) and idealises the finite ones as exact rationals kept in lowest
    terms, so that two finite numbers are the same value exactly when they
    are the same term.  Two things are therefore outside the model and are
    not claimed: rounding (integers are exact whatever their size, where a
    double is exact up to 2^53), and the sign of zero (the model has one
    zero, the double [+0]). *)

From Equations Require Import Equations.
From Stdlib Require Import String.
From Stdlib Require Import ZArith QArith Qround Qabs Qreduction.
From Stdlib Require Import Znumtheory List Bool Lia Lqa.
From Stdlib Require Import Sorted.
Import ListNotations.

Local Open Scope Z_scope.

(* ================================================================== *)
(** ** The [number] type *)
(* ================================================================== *)

Inductive number : Type :=
| Fin (q : Q)
| PosInf
| NegInf
| NaN.

(** An integer literal or an integer-valued number. *)
Definition Int (z : Z) : number := Fin (inject_Z z).

(** The global [isNaN]. *)
Definition isNaN (x : number) : bool :=
  match x with NaN => true | _ => false end.

(** Sign of a number that is not [NaN]: [Lt] negative, [Eq] zero,
    [Gt] positive. *)
Definition num_sign (x : number) : comparison :=
  match x with
  | Fin q => (q ?= 0)%Q
  | PosInf => Gt
  | NegInf => Lt
  | NaN => Eq
  end.

(** The infinity of a given sign; an undetermined sign ([Eq]) is [NaN],
    which is what [0 * Infinity] and [0 / 0] are. *)
Definition inf_of_sign (c : comparison) : number :=
  match c with
  | Lt => NegInf
  | Eq => NaN
  | Gt => PosInf
  end.

Definition sign_mul (c d : comparison) : comparison :=
  match c, d with
  | Eq, _ | _, Eq => Eq
  | Lt, Lt | Gt, Gt => Gt
  | Lt, Gt | Gt, Lt => Lt
  end.

(** [x + y]. *)
Definition num_add (x y : number) : number :=
  match x, y with
  | NaN, _ | _, NaN => NaN
  | Fin p, Fin q => Fin (Qred (p + q))
  | Fin _, PosInf | PosInf, Fin _ | PosInf, PosInf => PosInf
  | Fin _, NegInf | NegInf, Fin _ | NegInf, NegInf => NegInf
  | PosInf, NegInf | NegInf, PosInf => NaN
  end.

(** [x - y]. *)
Definition num_sub (x y : number) : number :=
  match x, y with
  | NaN, _ | _, NaN => NaN
  | Fin p, Fin q => Fin (Qred (p - q))
  | Fin _, NegInf | PosInf, Fin _ | PosInf, NegInf => PosInf
  | Fin _, PosInf | NegInf, Fin _ | NegInf, PosInf => NegInf
  | PosInf, PosInf | NegInf, NegInf => NaN
  end.

(** [x * y]. *)
Definition num_mul (x y : number) : number :=
  match x, y with
  | NaN, _ | _, NaN => NaN
  | Fin p, Fin q => Fin (Qred (p * q))
  | _, _ => inf_of_sign (sign_mul (num_sign x) (num_sign y))
  end.

(** [x / y].  A finite number over zero is an infinity of the sign of the
    dividend, and [0 / 0] is [NaN]; nothing is thrown. *)
Definition num_div (x y : number) : number :=
  match x, y with
  | NaN, _ | _, NaN => NaN
  | Fin p, Fin q =>
      if Qeq_bool q 0 then inf_of_sign (p ?= 0)%Q else Fin (Qred (p / q))
  | Fin _, _ => Fin 0
  | _, Fin q => if Qeq_bool q 0 then x else inf_of_sign (sign_mul (num_sign x) (q ?= 0)%Q)
  | _, _ => NaN
  end.

(** [Math.floor]. *)
Definition Math_floor (x : number) : number :=
  match x with
  | Fin q => Int (Qfloor q)
  | _ => x
  end.

(** [Math.abs]. *)
Definition Math_abs (x : number) : number :=
  match x with
  | Fin q => Fin (Qred (Qabs q))
  | PosInf | NegInf => PosInf
  | NaN => NaN
  end.

(** [x === y] on numbers: [NaN] is equal to nothing, itself included. *)
Definition strict_eq (x y : number) : bool :=
  match x, y with
  | Fin p, Fin q => Qeq_bool p q
  | PosInf, PosInf | NegInf, NegInf => true
  | _, _ => false
  end.

(** [x !== y]. *)
Definition strict_neq (x y : number) : bool := negb (strict_eq x y).

Declare Scope num_scope.
Delimit Scope num_scope with num.
Bind Scope num_scope with number.
Infix "+" := num_add : num_scope.
Infix "-" := num_sub : num_scope.
Infix "*" := num_mul : num_scope.
Infix "/" := num_div : num_scope.
Infix "===" := strict_eq (at level 70, no associativity) : num_scope.
Infix "!==" := strict_neq (at level 70, no associativity) : num_scope.

(* ================================================================== *)
(** ** Outcomes of a call *)
(* ================================================================== *)

(** A call returns a value, throws an [Error] with a message, or is still
    running when the step budget of the model is used up.  The budget
    ([fuel]) bounds the iterations of one [while] loop; it is not part of
    the program. *)
Inductive outcome (A : Type) : Type :=
| Returned (v : A)
| Threw (message : string)
| OutOfFuel.

Arguments Returned {A} v.
Arguments Threw {A} message.
Arguments OutOfFuel {A}.

Definition bind {A B : Type} (m : outcome A) (k : A -> outcome B) : outcome B :=
  match m with
  | Returned v => k v
  | Threw msg => Threw msg
  | OutOfFuel => OutOfFuel
  end.

Notation "x <- m ;; k" := (bind m (fun x => k))
  (at level 61, m at next level, right associativity).

(** A computation [f], run with a step budget, returns [v] within [n]
    steps: every budget of at least [n] is enough and gives [v]. *)
Definition evaluates_within {A : Type} (n : nat) (f : nat -> outcome A)
    (v : A) : Prop :=
  forall fuel : nat, (n <= fuel)%nat -> f fuel = Returned v.

(** [f] evaluates to [v]: it returns [v] within some number of steps. *)
Definition evaluates_to {A : Type} (f : nat -> outcome A) (v : A) : Prop :=
  exists n : nat, evaluates_within n f v.

(* ================================================================== *)
(** ** [src/fraction.ts]: the helper [mmod] *)
(* ================================================================== *)

(** Mathematical modulo on rationals: [x - p * floor (x / p)], which for
    [p > 0] lies in [[0, p)]. *)
Definition Qmod (x p : Q) : Q := (x - p * inject_Z (Qfloor (x / p)))%Q.

(** Modelled from the spec: [mmod] is imported from [./fraction], whose
    text is missing.  The specification (4.5) describes it as the
    mathematical modulo, whose result has the sign of the period, as
    opposed to the truncating remainder.  It fixes no result for a zero
    period or a non-finite argument; [NaN] is taken there. *)
Definition mmod (a b : number) : number :=
  match a, b with
  | Fin x, Fin p => if Qeq_bool p 0 then NaN else Fin (Qred (Qmod x p))
  | _, _ => NaN
  end.

(* ================================================================== *)
(** ** [src/index.ts] *)
(* ================================================================== *)

(** [div(a, b)]: [Math.floor(a / b)]. *)
Definition div (a b : number) : number := Math_floor (a / b)%num.

(** Result of the extended Euclidean algorithm (type [ExtendedEuclid]). *)
Record ExtendedEuclid : Type := mkExtendedEuclid {
  coefA : number;
  coefB : number;
  gcd : number;
  quotientA : number;
  quotientB : number
}.

(** The six variables of the loop of [extendedEuclid]. *)
Module Vars.
Record vars : Type := mk {
  rOld : number; r : number;
  sOld : number; s : number;
  tOld : number; t : number
}.
End Vars.

(** [[rOld, r] = [a, b]; [sOld, s] = [1, 0]; [tOld, t] = [0, 1]]. *)
Definition euclid_init (a b : number) : Vars.vars :=
  Vars.mk a b (Int 1) (Int 0) (Int 0) (Int 1).

(** The body of the loop: the right-hand sides are evaluated with the old
    values, then assigned. *)
Definition euclid_body (v : Vars.vars) : Vars.vars :=
  let quotient := div (Vars.rOld v) (Vars.r v) in
  Vars.mk
    (Vars.r v) (Vars.rOld v - quotient * Vars.r v)%num
    (Vars.s v) (Vars.sOld v - quotient * Vars.s v)%num
    (Vars.t v) (Vars.tOld v - quotient * Vars.t v)%num.

(** [while (r !== 0) { body }]. *)
Fixpoint euclid_loop (fuel : nat) (v : Vars.vars) : outcome Vars.vars :=
  if (Vars.r v !== Int 0)%num then
    match fuel with
    | O => OutOfFuel
    | S fuel' => euclid_loop fuel' (euclid_body v)
    end
  else Returned v.

Definition extendedEuclid (fuel : nat) (a b : number) : outcome ExtendedEuclid :=
  if isNaN a || isNaN b then Threw "Invalid input"
  else
    v <- euclid_loop fuel (euclid_init a b) ;;
    Returned {|
      coefA := Vars.sOld v;
      coefB := Vars.tOld v;
      gcd := Vars.rOld v;
      quotientA := Vars.t v;
      quotientB := Math_abs (Vars.s v)
    |}.

(** The [for ... of] loop of [iteratedEuclid], with its two variables: [a]
    ([undefined] is [None]) and the array [coefs]. *)
Fixpoint iteratedEuclid_loop (fuel : nat) (params : list number)
    (a : option number) (coefs : list number) : outcome (list number) :=
  match params with
  | [] => Returned coefs
  | param :: rest =>
      match a with
      | None => iteratedEuclid_loop fuel rest (Some param) (coefs ++ [Int 1])
      | Some a' =>
          ee <- extendedEuclid fuel a' param ;;
          let coefs' := map (fun c => (c * coefA ee)%num) coefs in
          iteratedEuclid_loop fuel rest (Some (gcd ee)) (coefs' ++ [coefB ee])
      end
  end.

Definition iteratedEuclid (fuel : nat) (params : list number)
    : outcome (list number) :=
  iteratedEuclid_loop fuel params None [].

(** [BINOMIALS]: the first rows of Pascal's triangle. *)
Definition BINOMIALS : list (list number) :=
  map (map Int)
    [ [1];
      [1; 1];
      [1; 2; 1];
      [1; 3; 3; 1];
      [1; 4; 6; 4; 1];
      [1; 5; 10; 10; 5; 1];
      [1; 6; 15; 20; 15; 6; 1];
      [1; 7; 21; 35; 35; 21; 7; 1];
      [1; 8; 28; 56; 70; 56; 28; 8; 1] ].

(** An array read [row[i]] in an addition: a missing element is
    [undefined], which adds up to [NaN]. *)
Definition summand (row : list number) (i : nat) : number := nth i row NaN.

(** The body of the [while] loop of [binomial]: the row after the last one
    is pushed onto the table.  The table starts with nine rows and only
    grows, so it has a last row. *)
Definition binomial_body (table : list (list number)) : list (list number) :=
  let s := length table in
  let lastRow := nth (s - 1) table [] in
  let nextRow :=
    [Int 1]
    ++ map (fun i => (summand lastRow (i - 1) + summand lastRow i)%num)
           (seq 1 (s - 1))
    ++ [Int 1] in
  table ++ [nextRow].

(** [while (n >= BINOMIALS.length) { body }]; every iteration makes the
    table one row longer, so [fuel] iterations are enough when
    [n < length table + fuel]. *)
Fixpoint binomial_loop (fuel : nat) (table : list (list number)) (n : nat)
    : list (list number) :=
  if (length table <=? n)%nat then
    match fuel with
    | O => table
    | S fuel' => binomial_loop fuel' (binomial_body table) n
    end
  else table.

(** [binomial(n, k)] for array indices [n] and [k], from a state of the
    table [BINOMIALS]: the value read ([None] is [undefined]) and the new
    state of the table.  The loop adds the rows up to row [n], at most
    [n + 1] of them. *)
Definition binomial (table : list (list number)) (n k : nat)
    : option number * list (list number) :=
  let table' := binomial_loop (S n) table n in
  (nth_error (nth n table' []) k, table').

(** The default value of the parameter [equaveCents]. *)
Definition equaveCents_default : number := Int 1200.

Definition circleDifference (a b equaveCents : number) : number :=
  let half := (Fin (1 # 2) * equaveCents)%num in
  (mmod (a - b + half) equaveCents - half)%num.

Definition circleDistance (a b equaveCents : number) : number :=
  Math_abs (circleDifference a b equaveCents).

(** [x < y] on numbers: false as soon as one side is [NaN]. *)
Definition num_lt (x y : number) : bool :=
  match x, y with
  | Fin p, Fin q => match (p ?= q)%Q with Lt => true | _ => false end
  | Fin _, PosInf | NegInf, Fin _ | NegInf, PosInf => true
  | _, _ => false
  end.

(** [x > y]. *)
Definition num_gt (x y : number) : bool := num_lt y x.

(** [Math.max] of two numbers: [NaN] as soon as one of them is. *)
Definition Math_max (x y : number) : number :=
  match x, y with
  | NaN, _ | _, NaN => NaN
  | _, _ => if num_lt x y then y else x
  end.

(** An array ([AnyArray], [NumberArray]) is an object: it has an identity,
    which [===] compares, and elements. *)
Record AnyArray (A : Type) : Type := mkArray {
  object_id : nat;
  items : list A
}.

Arguments mkArray {A} object_id items.
Arguments object_id {A} a.
Arguments items {A} a.

(** The loop of [arraysEqual], run on two arrays of the same length:
    [false] at the first index with [a[i] !== b[i]].  The elements are
    [any]; [strict_equal] is [===] on them. *)
Fixpoint arraysEqual_loop {A : Type} (strict_equal : A -> A -> bool)
    (a b : list A) : bool :=
  match a, b with
  | x :: a', y :: b' =>
      if negb (strict_equal x y) then false
      else arraysEqual_loop strict_equal a' b'
  | _, _ => true
  end.

Definition arraysEqual {A : Type} (strict_equal : A -> A -> bool)
    (a b : AnyArray A) : bool :=
  if (object_id a =? object_id b)%nat then true
  else if negb (length (items a) =? length (items b))%nat then false
  else arraysEqual_loop strict_equal (items a) (items b).

Definition clamp (minValue maxValue value : number) : number :=
  if num_lt value minValue then minValue
  else if num_gt value maxValue then maxValue
  else value.

(** The loop of [dot]: [result += a[i] * b[i]] up to the shorter length. *)
Fixpoint dot_loop (result : number) (a b : list number) : number :=
  match a, b with
  | x :: a', y :: b' => dot_loop (result + x * y)%num a' b'
  | _, _ => result
  end.

Definition dot (a b : list number) : number := dot_loop (Int 0) a b.

(** The parameter [type] of [norm]. *)
Inductive NormType : Type := euclidean | taxicab | maximum.

(** One iteration of the loop of [norm]. *)
Definition norm_body (type : NormType) (result x : number) : number :=
  match type with
  | taxicab => (result + Math_abs x)%num
  | maximum => Math_max result (Math_abs x)
  | euclidean => (result + x * x)%num
  end.

(** [norm(array, type)].  [Math.sqrt] has no exact value on the
    rationals: the function that stands for it is an argument. *)
Definition norm (Math_sqrt : number -> number) (array : list number)
    (type : NormType) : number :=
  let result := fold_left (norm_body type) array (Int 0) in
  match type with
  | euclidean => Math_sqrt result
  | _ => result
  end.

(** The class [FractionSet].  A [Set] keeps its elements in insertion
    order and holds an object once: [same] is the identity of objects
    ([SameValueZero]).  The class [Fraction] comes from [./fraction];
    [equals other value] is the method call [other.equals(value)]. *)
Module FractionSet.
Section Methods.
Context {Fraction : Type}.
Variable same : Fraction -> Fraction -> bool.
Variable equals : Fraction -> Fraction -> bool.

(** [Set.prototype.add], the [super.add] of the class. *)
Definition super_add (value : Fraction) (this : list Fraction)
    : list Fraction :=
  if existsb (fun x => same x value) this then this else this ++ [value].

(** [Set.prototype.delete], the [super.delete] of the class: the new set
    and whether an element was removed. *)
Definition super_delete (value : Fraction) (this : list Fraction)
    : list Fraction * bool :=
  (filter (fun x => negb (same x value)) this,
   existsb (fun x => same x value) this).

Definition has (value : Fraction) (this : list Fraction) : bool :=
  existsb (fun other => equals other value) this.

Definition add (value : Fraction) (this : list Fraction) : list Fraction :=
  if has value this then this else super_add value this.

Definition delete (value : Fraction) (this : list Fraction)
    : list Fraction * bool :=
  match find (fun other => equals other value) this with
  | Some other => super_delete other this
  | None => (this, false)
  end.
End Methods.
End FractionSet.

(* ================================================================== *)
(** ** [src/combinations.ts] *)
(* ================================================================== *)

(** Arrays are lists; an element is "unique by position", so nothing is
    asked of the element type.  [k] is an integer. *)
Section Combinations.
Context {A : Type}.

(** [set.length]. *)
Definition array_length (set : list A) : Z := Z.of_nat (length set).

(** [set.slice(start, end)] for [0 <= start <= end]. *)
Definition slice (start end_ : nat) (set : list A) : list A :=
  firstn (end_ - start) (skipn start set).

(** [set.slice(start)] for [0 <= start]. *)
Definition slice_from (start : nat) (set : list A) : list A :=
  skipn start set.

(** The recursion is on [k - 1] under the guard [0 < k]. *)
Equations? kCombinations (set : list A) (k : Z) : list (list A)
  by wf (Z.to_nat k) lt :=
kCombinations set k with
    sumbool_of_bool ((k >? array_length set) || (k <=? 0)) := {
  | left _ => [];
  | right Hk =>
      if k =? array_length set then [set]
      else if k =? 1 then map (fun x => [x]) set
      else
        flat_map (fun i : nat =>
          let head := slice i (i + 1) set in
          let tailCombs := kCombinations (slice_from (i + 1) set) (k - 1) in
          map (fun c => head ++ c) tailCombs)
        (seq 0 (Z.to_nat (array_length set - k + 1))) }.
Proof.
  apply orb_false_elim in Hk. destruct Hk as [_ Hk]. lia.
Qed.

(** [for (k = 1; k <= set.length; k++)], every k-combination pushed in
    turn. *)
Definition combinations (set : list A) : list (list A) :=
  flat_map (fun k : nat => kCombinations set (Z.of_nat k))
           (seq 1 (length set)).
End Combinations.

(* ================================================================== *)
(** ** Mathematical notions the properties are stated with *)
(* ================================================================== *)

(** The loop variables when all six hold integers. *)
Record zvars : Type := mkz {
  zrOld : Z; zr : Z;
  zsOld : Z; zs : Z;
  ztOld : Z; zt : Z
}.

Definition Vars_of (z : zvars) : Vars.vars :=
  Vars.mk (Int (zrOld z)) (Int (zr z))
          (Int (zsOld z)) (Int (zs z))
          (Int (ztOld z)) (Int (zt z)).

(** One iteration on integers, with the floor quotient [Z.div]. *)
Definition zbody (z : zvars) : zvars :=
  let quotient := zrOld z / zr z in
  mkz (zr z) (zrOld z - quotient * zr z)
      (zs z) (zsOld z - quotient * zs z)
      (zt z) (ztOld z - quotient * zt z).

Definition zinit (a b : Z) : zvars := mkz a b 1 0 0 1.

(** The record [extendedEuclid] returns from a final integer state. *)
Definition result_of (z : zvars) : ExtendedEuclid :=
  {| coefA := Int (zsOld z);
     coefB := Int (ztOld z);
     gcd := Int (zrOld z);
     quotientA := Int (zt z);
     quotientB := Int (Z.abs (zs z)) |}.

(** What the loop keeps true of its variables for the inputs [a], [b]:
    both remainders are combinations of the inputs, they have the gcd of
    the inputs, the coefficient matrix has determinant 1 or -1, and the
    remainders take the sign of [b]. *)
Record euclid_inv (a b : Z) (z : zvars) : Prop := {
  inv_old : a * zsOld z + b * ztOld z = zrOld z;
  inv_cur : a * zs z + b * zt z = zr z;
  inv_gcd : Z.gcd (zrOld z) (zr z) = Z.gcd a b;
  inv_det : zsOld z * zt z - zs z * ztOld z = 1
            \/ zsOld z * zt z - zs z * ztOld z = -1;
  inv_sgn : b <> 0 ->
            (zr z = 0 \/ Z.sgn (zr z) = Z.sgn b)
            /\ (zr z = 0 -> Z.sgn (zrOld z) = Z.sgn b);
  inv_zero : b = 0 -> zrOld z = a /\ zr z = 0
}.

(** The non-negative gcd of a sequence of integers. *)
Definition gcd_list (l : list Z) : Z := fold_right Z.gcd 0 l.

(** [sum (seq[i] * coef[i])]. *)
Fixpoint weighted_sum (l coefs : list Z) : Z :=
  match l, coefs with
  | x :: l', c :: coefs' => x * c + weighted_sum l' coefs'
  | _, _ => 0
  end.

(** The sign of the last nonzero element of a sequence ([0] when there is
    none). *)
Definition lead_sign (l : list Z) : Z :=
  fold_left (fun sg x => if x =? 0 then sg else Z.sgn x) l 0.

(** The gcd of a sequence with the sign of its last nonzero element. *)
Definition seen_sign_gcd (l : list Z) : Z := lead_sign l * gcd_list l.

(** A number of iterations that is enough for every call of
    [extendedEuclid] made by [iteratedEuclid]: the largest absolute value
    in the sequence. *)
Definition euclid_budget (l : list Z) : nat :=
  fold_right (fun x n => Nat.max (Z.abs_nat x) n) 0%nat l.

(** The binomial coefficient, by Pascal's rule. *)
Fixpoint choose (n k : nat) : nat :=
  match n, k with
  | _, O => 1
  | O, S _ => 0
  | S n', S k' => choose n' k' + choose n' k
  end.

(** The sublists of [l] with [k] elements, by the first element they
    take: those that take the head first, then those that skip it. *)
Fixpoint sublists_of_size {A : Type} (k : nat) (l : list A) : list (list A) :=
  match k, l with
  | O, _ => [[]]
  | S _, [] => []
  | S k', x :: l' =>
      map (cons x) (sublists_of_size k' l') ++ sublists_of_size k l'
  end.

(** Row [n] of Pascal's triangle, as an array of numbers. *)
Definition pascal_row (n : nat) : list number :=
  map (fun k => Int (Z.of_nat (choose n k))) (seq 0 (S n)).

(** A state of the table: the rows of Pascal's triangle up to some row. *)
Definition pascal_table (table : list (list number)) : Prop :=
  table <> [] /\ table = map pascal_row (seq 0 (length table)).

(** No member of a [FractionSet] is [equals] to a later one. *)
Fixpoint pairwise_unequal {F : Type} (equals : F -> F -> bool) (s : list F)
    : Prop :=
  match s with
  | [] => True
  | x :: s' => Forall (fun y => equals x y = false) s' /\ pairwise_unequal equals s'
  end.

(** Fraction objects to run [FractionSet] on: an object identity and a
    rational value, compared by [equals]. *)
Definition fraction_object : Type := (nat * Q)%type.

Definition same_object (x y : fraction_object) : bool :=
  (fst x =? fst y)%nat
  && (Qnum (snd x) =? Qnum (snd y))
  && (Qden (snd x) =? Qden (snd y))%positive.

Definition equals_value (x y : fraction_object) : bool :=
  Qeq_bool (snd x) (snd y).

(** [Infinity] or [-Infinity]. *)
Definition is_infinite (x : number) : bool :=
  match x with
  | PosInf | NegInf => true
  | _ => false
  end.

(** [c] takes its elements from [l] in their order in [l]. *)
Inductive subseq {A : Type} : list A -> list A -> Prop :=
| subseq_nil : subseq [] []
| subseq_skip x c l : subseq c l -> subseq c (x :: l)
| subseq_take x c l : subseq c l -> subseq (x :: c) (x :: l).

(* ================================================================== *)
(** * Properties *)
(* ================================================================== *)

(** ** Integer-valued numbers *)

Lemma Qred_inject_Z (z : Z) : Qred (inject_Z z) = inject_Z z.
Proof.
  pose proof (Qred_correct (inject_Z z)) as E.
  pose proof (gcd_Qred (inject_Z z)) as G.
  destruct (Qred (inject_Z z)) as [n d].
  unfold Qeq in E. simpl in E, G.
  rewrite Z.mul_1_r in E. subst n.
  rewrite Z.gcd_comm, Z.mul_comm, Z.gcd_mul_diag_l in G by lia.
  unfold inject_Z. f_equal; lia.
Qed.

Lemma Fin_Qeq_Int (q : Q) (z : Z) : (q == inject_Z z)%Q -> Fin (Qred q) = Int z.
Proof.
  intros H. unfold Int. rewrite <- (Qred_inject_Z z).
  f_equal. apply Qred_complete, H.
Qed.

Lemma num_sub_Int (x y : Z) : (Int x - Int y)%num = Int (x - y).
Proof.
  apply Fin_Qeq_Int. unfold Z.sub. rewrite inject_Z_plus, inject_Z_opp.
  reflexivity.
Qed.

Lemma num_add_Int (x y : Z) : (Int x + Int y)%num = Int (x + y).
Proof.
  apply Fin_Qeq_Int. rewrite inject_Z_plus. reflexivity.
Qed.

Lemma num_mul_Int (x y : Z) : (Int x * Int y)%num = Int (x * y).
Proof.
  apply Fin_Qeq_Int. rewrite inject_Z_mult. reflexivity.
Qed.

Lemma Math_abs_Int (x : Z) : Math_abs (Int x) = Int (Z.abs x).
Proof.
  apply Fin_Qeq_Int. unfold Qabs, inject_Z. reflexivity.
Qed.

Lemma Qeq_bool_inject_Z (x y : Z) :
  Qeq_bool (inject_Z x) (inject_Z y) = (x =? y).
Proof.
  unfold Qeq_bool, inject_Z. simpl. now rewrite !Z.mul_1_r.
Qed.

Lemma strict_neq_Int (x y : Z) : (Int x !== Int y)%num = negb (x =? y).
Proof.
  unfold strict_neq, strict_eq, Int. now rewrite Qeq_bool_inject_Z.
Qed.

Lemma Int_inj (x y : Z) : Int x = Int y -> x = y.
Proof.
  unfold Int, inject_Z. intros H. now injection H.
Qed.

(** On integers with a nonzero divisor [div] is the floor quotient. *)
Lemma div_Int (x y : Z) : y <> 0 -> div (Int x) (Int y) = Int (x / y).
Proof.
  intros Hy. unfold div, num_div, Int at 1 2.
  change 0%Q with (inject_Z 0). rewrite Qeq_bool_inject_Z.
  destruct (Z.eqb_spec y 0) as [E | _]; [contradiction |].
  unfold Math_floor. f_equal.
  rewrite (Qfloor_comp _ _ (Qred_correct _)).
  symmetry. apply Zdiv_Qdiv.
Qed.

(** ** The loop of [extendedEuclid] on integers *)

Lemma euclid_body_Vars_of (z : zvars) :
  zr z <> 0 -> euclid_body (Vars_of z) = Vars_of (zbody z).
Proof.
  intros Hr. unfold euclid_body, Vars_of, zbody. cbn [Vars.rOld Vars.r Vars.sOld Vars.s Vars.tOld Vars.t].
  rewrite (div_Int _ _ Hr), !num_mul_Int, !num_sub_Int. reflexivity.
Qed.

Lemma zbody_decreases (z : zvars) :
  zr z <> 0 -> Z.abs (zr (zbody z)) < Z.abs (zr z).
Proof.
  intros Hr. unfold zbody. cbn [zr].
  replace (zrOld z - zrOld z / zr z * zr z) with (zrOld z mod zr z)
    by (rewrite Z.mod_eq by assumption; ring).
  destruct (Z.lt_total (zr z) 0) as [Hn | [E | Hp]]; [| contradiction |].
  - pose proof (Z.mod_neg_bound (zrOld z) (zr z) Hn). lia.
  - pose proof (Z.mod_pos_bound (zrOld z) (zr z) Hp). lia.
Qed.

Lemma zinit_inv (a b : Z) : euclid_inv a b (zinit a b).
Proof.
  constructor; cbn; lia.
Qed.

Lemma zbody_inv (a b : Z) (z : zvars) :
  zr z <> 0 -> euclid_inv a b z -> euclid_inv a b (zbody z).
Proof.
  intros Hr [Hold Hcur Hgcd Hdet Hsgn Hzero].
  assert (Hb : b <> 0) by (intros E; destruct (Hzero E); contradiction).
  destruct (Hsgn Hb) as [[E | Hs] _]; [contradiction |].
  set (q := zrOld z / zr z).
  constructor; unfold zbody; fold q; cbn [zrOld zr zsOld zs ztOld zt].
  - exact Hcur.
  - rewrite <- Hold, <- Hcur. ring.
  - rewrite <- Hgcd.
    replace (zrOld z - q * zr z) with (zrOld z + (- q) * zr z) by ring.
    rewrite Z.gcd_add_mult_diag_r. apply Z.gcd_comm.
  - destruct Hdet as [D | D]; [right | left]; lia.
  - intros _. split.
    + replace (zrOld z - q * zr z) with (zrOld z mod zr z)
        by (unfold q; rewrite Z.mod_eq by assumption; ring).
      destruct (Z.lt_total (zr z) 0) as [Hn | [E | Hp]]; [| contradiction |].
      * pose proof (Z.mod_neg_bound (zrOld z) (zr z) Hn). lia.
      * pose proof (Z.mod_pos_bound (zrOld z) (zr z) Hp). lia.
    + intros _. exact Hs.
  - intros E. contradiction.
Qed.

(** With a budget of at least [|r|] iterations the loop ends, on a state
    that still satisfies the invariant and has [r = 0]. *)
Lemma euclid_loop_Vars_of (a b : Z) (fuel : nat) :
  forall z : zvars,
    euclid_inv a b z ->
    (Z.abs_nat (zr z) <= fuel)%nat ->
    exists z' : zvars,
      euclid_loop fuel (Vars_of z) = Returned (Vars_of z')
      /\ euclid_inv a b z' /\ zr z' = 0.
Proof.
  induction fuel as [| fuel IH]; intros z Hinv Hfuel.
  - exists z. assert (zr z = 0) as E by lia.
    cbn [euclid_loop Vars_of Vars.r]. rewrite E, strict_neq_Int. cbn.
    rewrite <- E at 1. auto.
  - destruct (Z.eq_dec (zr z) 0) as [E | Hr].
    + exists z. cbn [euclid_loop Vars_of Vars.r].
      rewrite E, strict_neq_Int. cbn. rewrite <- E at 1. auto.
    + cbn [euclid_loop]. unfold Vars_of at 1. cbn [Vars.r].
      rewrite strict_neq_Int.
      destruct (Z.eqb_spec (zr z) 0) as [E | _]; [contradiction |].
      cbn [negb]. fold (Vars_of z).
      rewrite (euclid_body_Vars_of z Hr).
      apply IH.
      * apply zbody_inv; assumption.
      * pose proof (zbody_decreases z Hr). lia.
Qed.

(** A larger budget does not change what the loop returns. *)
Lemma euclid_loop_mono (fuel fuel' : nat) (v v' : Vars.vars) :
  (fuel <= fuel')%nat ->
  euclid_loop fuel v = Returned v' -> euclid_loop fuel' v = Returned v'.
Proof.
  revert fuel' v. induction fuel as [| fuel IH]; intros fuel' v Hle H.
  - cbn [euclid_loop] in H.
    destruct fuel'; cbn [euclid_loop];
      destruct (Vars.r v !== Int 0)%num; try discriminate; assumption.
  - destruct fuel' as [| fuel']; [lia |].
    cbn [euclid_loop] in *.
    destruct (Vars.r v !== Int 0)%num; [| assumption].
    apply IH; [lia | assumption].
Qed.

Lemma extendedEuclid_mono (fuel fuel' : nat) (a b : number)
    (res : ExtendedEuclid) :
  (fuel <= fuel')%nat ->
  extendedEuclid fuel a b = Returned res ->
  extendedEuclid fuel' a b = Returned res.
Proof.
  intros Hle. unfold extendedEuclid.
  destruct (isNaN a || isNaN b); [discriminate |].
  destruct (euclid_loop fuel (euclid_init a b)) as [v | |] eqn:E;
    cbn [bind]; try discriminate.
  intros H. rewrite (euclid_loop_mono fuel fuel' _ v Hle E). exact H.
Qed.

Lemma evaluates_from_run {A : Type} (f : nat -> outcome A) (n : nat) (v : A) :
  (forall fuel fuel' w, (fuel <= fuel')%nat ->
     f fuel = Returned w -> f fuel' = Returned w) ->
  f n = Returned v -> evaluates_within n f v.
Proof.
  intros Hmono H fuel Hle. exact (Hmono n fuel v Hle H).
Qed.

(** On integers [extendedEuclid] returns, after at most [|b|] iterations,
    the record of a state with [r = 0] that satisfies the invariant. *)
Lemma extendedEuclid_Int (a b : Z) :
  exists z : zvars,
    euclid_inv a b z /\ zr z = 0 /\
    evaluates_within (Z.abs_nat b)
      (fun fuel => extendedEuclid fuel (Int a) (Int b)) (result_of z).
Proof.
  destruct (euclid_loop_Vars_of a b (Z.abs_nat b) (zinit a b)
              (zinit_inv a b) (le_n _)) as (z & Hrun & Hinv & Hr).
  exists z. split; [assumption |]. split; [assumption |].
  apply evaluates_from_run.
  - intros fuel fuel' w. apply extendedEuclid_mono.
  - unfold extendedEuclid. cbn [isNaN Int orb].
    change (euclid_init (Int a) (Int b)) with (Vars_of (zinit a b)).
    rewrite Hrun. cbn [bind Vars_of Vars.sOld Vars.tOld Vars.rOld Vars.t Vars.s].
    rewrite Math_abs_Int. reflexivity.
Qed.

(** At the end of the loop the last remainder is the gcd up to sign. *)
Lemma euclid_inv_final_gcd (a b : Z) (z : zvars) :
  euclid_inv a b z -> zr z = 0 -> Z.abs (zrOld z) = Z.gcd a b.
Proof.
  intros Hinv Hr. rewrite <- (inv_gcd a b z Hinv), Hr. symmetry. apply Z.gcd_0_r.
Qed.

Lemma euclid_loop_no_throw (fuel : nat) :
  forall (v : Vars.vars) (msg : string), euclid_loop fuel v <> Threw msg.
Proof.
  induction fuel as [| fuel IH]; intros v msg; cbn [euclid_loop];
    destruct (Vars.r v !== Int 0)%num; try discriminate.
  apply IH.
Qed.

(** At the end of the loop the last pair of coefficients holds the
    quotients of the inputs by the last remainder, up to a common sign. *)
Lemma euclid_inv_final_quotients (a b : Z) (z : zvars) :
  euclid_inv a b z -> zr z = 0 ->
  exists d : Z, (d = 1 \/ d = -1)
    /\ zrOld z * zt z = a * d /\ zrOld z * zs z = - (b * d).
Proof.
  intros [Hold Hcur _ Hdet _ _] Hr.
  exists (zsOld z * zt z - zs z * ztOld z).
  split; [exact Hdet |].
  rewrite Hr in Hcur. rewrite <- Hold.
  assert (E1 : ztOld z * (a * zs z + b * zt z) = 0) by (rewrite Hcur; ring).
  assert (E2 : zsOld z * (a * zs z + b * zt z) = 0) by (rewrite Hcur; ring).
  split; lia.
Qed.

(** ** The extended Euclidean algorithm *)







(** C3 on [extendedEuclid(240, 46)]: the call returns [quotientA = -120]
    with [gcd = 2], where [div(240, 2)] is [120]. *)
Theorem extendedEuclid_quotientA_240_46 :
  evaluates_to (fun fuel => extendedEuclid fuel (Int 240) (Int 46))
    {| coefA := Int (-9); coefB := Int 47; gcd := Int 2;
       quotientA := Int (-120); quotientB := Int 23 |}
  /\ div (Int 240) (Int 2) = Int 120
  /\ Int (-120) <> Int 120.
Proof.
  split; [| split].
  - exists 5%nat. apply evaluates_from_run.
    + intros fuel fuel' w. apply extendedEuclid_mono.
    + vm_compute. reflexivity.
  - vm_compute. reflexivity.
  - intros E. apply Int_inj in E. discriminate.
Qed.

(** C6.  [extendedEuclid] throws exactly when one of its arguments is
    [NaN], whatever the other one is, and the error then carries the
    message ['Invalid input']; on [(0, 0)] it returns, with [gcd = 0]. *)
Theorem extendedEuclid_throws_iff_NaN (fuel : nat) (a b : number) :
  ((exists msg : string, extendedEuclid fuel a b = Threw msg)
     <-> isNaN a = true \/ isNaN b = true)
  /\ (extendedEuclid fuel a b = Threw "Invalid input"
     <-> isNaN a = true \/ isNaN b = true)
  /\ extendedEuclid fuel (Int 0) (Int 0)
     = Returned {| coefA := Int 1; coefB := Int 0; gcd := Int 0;
                   quotientA := Int 1; quotientB := Int 0 |}.
Proof.
  assert (Hthrow : forall msg, extendedEuclid fuel a b = Threw msg ->
                               isNaN a = true \/ isNaN b = true).
  { intros msg. unfold extendedEuclid.
    destruct (isNaN a || isNaN b) eqn:E.
    - intros _. apply orb_true_iff, E.
    - destruct (euclid_loop fuel (euclid_init a b)) as [v | m |] eqn:L;
        cbn [bind]; try discriminate.
      exfalso. exact (euclid_loop_no_throw fuel _ m L). }
  assert (Hnan : isNaN a = true \/ isNaN b = true ->
                 extendedEuclid fuel a b = Threw "Invalid input").
  { intros H. apply orb_true_iff in H. unfold extendedEuclid.
    rewrite H. reflexivity. }
  split; [| split].
  - split; [intros [msg H]; exact (Hthrow msg H) | eauto].
  - split; [apply Hthrow | exact Hnan].
  - destruct fuel; reflexivity.
Qed.



(** ** Floor division *)

Lemma Math_floor_inf_of_sign (c : comparison) :
  Math_floor (inf_of_sign c) = inf_of_sign c.
Proof. destruct c; reflexivity. Qed.

Lemma div_Int_zero (a : Z) : div (Int a) (Int 0) = inf_of_sign (a ?= 0).
Proof.
  unfold div, num_div, Int.
  change (Qeq_bool (inject_Z 0) 0) with true. cbv iota.
  rewrite Math_floor_inf_of_sign.
  unfold Qcompare. cbn [Qnum Qden inject_Z]. now rewrite Z.mul_1_r.
Qed.




(** ** Mathematical modulo on rationals *)

Lemma Qfloor_unique (q : Q) (n : Z) :
  (inject_Z n <= q)%Q -> (q < inject_Z n + 1)%Q -> Qfloor q = n.
Proof.
  intros Hlo Hhi.
  pose proof (Qfloor_le q) as Flo.
  pose proof (Qlt_floor q) as Fhi.
  rewrite inject_Z_plus in Fhi.
  assert (H1 : (inject_Z (Qfloor q) < inject_Z (n + 1))%Q)
    by (rewrite inject_Z_plus; eapply Qle_lt_trans; eassumption).
  assert (H2 : (inject_Z n < inject_Z (Qfloor q + 1))%Q)
    by (rewrite inject_Z_plus; eapply Qle_lt_trans; eassumption).
  rewrite <- Zlt_Qlt in H1, H2. lia.
Qed.

Lemma Qmod_comp (x x' p p' : Q) :
  (x == x')%Q -> (p == p')%Q -> (Qmod x p == Qmod x' p')%Q.
Proof.
  intros Hx Hp. unfold Qmod.
  assert (E : Qfloor (x / p) = Qfloor (x' / p'))
    by (apply Qfloor_comp; rewrite Hx, Hp; reflexivity).
  rewrite E, Hx, Hp. reflexivity.
Qed.

(** For a positive period the result lies in [[0, p)]: it has the sign of
    the period. *)
Lemma Qmod_range (x p : Q) :
  (0 < p)%Q -> (0 <= Qmod x p)%Q /\ (Qmod x p < p)%Q.
Proof.
  intros Hp. unfold Qmod.
  assert (Hp0 : ~ (p == 0)%Q) by lra.
  pose proof (Qfloor_le (x / p)) as Flo.
  pose proof (Qlt_floor (x / p)) as Fhi.
  rewrite inject_Z_plus in Fhi.
  set (n := inject_Z (Qfloor (x / p))) in *.
  assert (Ex : (x / p * p == x)%Q) by (field; exact Hp0).
  apply (Qmult_le_compat_r _ _ p) in Flo; [| lra].
  apply (Qmult_lt_compat_r _ _ p) in Fhi; [| exact Hp].
  rewrite Ex in Flo, Fhi.
  change (inject_Z 1) with 1%Q in Fhi. lra.
Qed.

(** The remainder is determined by its range and its congruence class. *)
Lemma Qmod_unique (x p u : Q) (n : Z) :
  (0 < p)%Q -> (x == p * inject_Z n + u)%Q -> (0 <= u)%Q -> (u < p)%Q ->
  (Qmod x p == u)%Q.
Proof.
  intros Hp Hx Hlo Hhi. unfold Qmod.
  assert (E : Qfloor (x / p) = n).
  { apply Qfloor_unique.
    - apply Qle_shift_div_l; [exact Hp |]. rewrite Hx. lra.
    - apply Qlt_shift_div_r; [exact Hp |]. rewrite Hx. lra. }
  rewrite E, Hx. ring.
Qed.

#[global] Instance Qmod_Proper : Proper (Qeq ==> Qeq ==> Qeq) Qmod.
Proof. intros x x' Hx p p' Hp. apply Qmod_comp; assumption. Qed.

(** ** Periodic distance *)

(** On finite arguments with a positive period both functions return a
    finite number, given by the formula of the code read in exact
    arithmetic. *)
Lemma circleDifference_Fin (a b p : Q) :
  (0 < p)%Q ->
  exists d : Q,
    circleDifference (Fin a) (Fin b) (Fin p) = Fin (Qred d)
    /\ (d == Qmod (a - b + p / 2) p - p / 2)%Q.
Proof.
  intros Hp. unfold circleDifference, num_mul, num_sub, num_add, mmod.
  destruct (Qeq_bool p 0) eqn:E.
  - apply Qeq_bool_eq in E. lra.
  - eexists. split; [reflexivity |].
    rewrite !Qred_correct.
    assert (Hh : ((1 # 2) * p == p / 2)%Q) by (field).
    rewrite Hh. reflexivity.
Qed.

Lemma circleDistance_Fin (a b p : Q) :
  (0 < p)%Q ->
  exists d : Q,
    circleDistance (Fin a) (Fin b) (Fin p) = Fin (Qred (Qabs d))
    /\ (d == Qmod (a - b + p / 2) p - p / 2)%Q.
Proof.
  intros Hp. unfold circleDistance.
  destruct (circleDifference_Fin a b p Hp) as (d & -> & Hd).
  exists d. split; [| exact Hd].
  unfold Math_abs. f_equal. apply Qred_complete.
  rewrite Qred_correct. reflexivity.
Qed.

(** The two displacements are opposite, except at the antipode, where
    both are [- p / 2]. *)
Lemma Qmod_reflect (x p : Q) :
  (0 < p)%Q ->
  (Qabs (Qmod (x + p / 2) p - p / 2)
   == Qabs (Qmod (- x + p / 2) p - p / 2))%Q.
Proof.
  intros Hp.
  assert (Hh : (p / 2 == (1 # 2) * p)%Q) by field.
  rewrite !Hh.
  destruct (Qmod_range (x + (1 # 2) * p) p Hp) as [Hlo Hhi].
  set (u := Qmod (x + (1 # 2) * p) p) in *.
  set (n := Qfloor ((x + (1 # 2) * p) / p)).
  assert (Hx : (x + (1 # 2) * p == p * inject_Z n + u)%Q).
  { unfold u, n, Qmod. ring. }
  clearbody u n.
  destruct (Qeq_dec u 0) as [Hu | Hu].
  - assert (E : (Qmod (- x + (1 # 2) * p) p == 0)%Q).
    { apply (Qmod_unique _ _ _ (1 - n)); [exact Hp | | lra | exact Hp].
      unfold Z.sub. rewrite inject_Z_plus, inject_Z_opp.
      change (inject_Z 1) with 1%Q.
      setoid_replace (p * (1 + - inject_Z n) + 0)%Q
        with (p - p * inject_Z n)%Q by ring.
      revert Hx. generalize (p * inject_Z n)%Q. intros m Hx. lra. }
    rewrite E, Hu. reflexivity.
  - assert (Hpos : (0 < u)%Q).
    { destruct (Qle_lt_or_eq _ _ Hlo) as [H | H]; [exact H |].
      symmetry in H. contradiction. }
    assert (E : (Qmod (- x + (1 # 2) * p) p == p - u)%Q).
    { apply (Qmod_unique _ _ _ (- n)); [exact Hp | | lra | lra].
      rewrite inject_Z_opp.
      setoid_replace (p * - inject_Z n + (p - u))%Q
        with (p - p * inject_Z n - u)%Q by ring.
      revert Hx. generalize (p * inject_Z n)%Q. intros m Hx. lra. }
    rewrite E.
    assert (E' : (p - u - (1 # 2) * p == - (u - (1 # 2) * p))%Q) by lra.
    rewrite E'. symmetry. apply Qabs_opp.
Qed.





(** ** The iterated Euclidean algorithm *)

Lemma iteratedEuclid_loop_mono (params : list number) :
  forall (fuel fuel' : nat) (a : option number) (coefs res : list number),
    (fuel <= fuel')%nat ->
    iteratedEuclid_loop fuel params a coefs = Returned res ->
    iteratedEuclid_loop fuel' params a coefs = Returned res.
Proof.
  induction params as [| param rest IH]; intros fuel fuel' a coefs res Hle.
  - cbn. auto.
  - cbn [iteratedEuclid_loop]. destruct a as [a' |].
    + destruct (extendedEuclid fuel a' param) as [ee | |] eqn:E;
        cbn [bind]; try discriminate.
      rewrite (extendedEuclid_mono fuel fuel' _ _ ee Hle E). cbn [bind].
      apply IH, Hle.
    + apply IH, Hle.
Qed.

Lemma gcd_list_snoc (l : list Z) (x : Z) :
  gcd_list (l ++ [x]) = Z.gcd (gcd_list l) x.
Proof.
  unfold gcd_list. induction l as [| y l IH]; cbn [app fold_right].
  - apply Z.gcd_comm.
  - rewrite IH. apply Z.gcd_assoc.
Qed.

Lemma lead_sign_snoc (l : list Z) (x : Z) :
  lead_sign (l ++ [x]) = if x =? 0 then lead_sign l else Z.sgn x.
Proof.
  unfold lead_sign. rewrite fold_left_app. reflexivity.
Qed.

Lemma weighted_sum_snoc (l cs : list Z) (x c : Z) :
  length cs = length l ->
  weighted_sum (l ++ [x]) (cs ++ [c]) = weighted_sum l cs + x * c.
Proof.
  revert cs. induction l as [| y l IH]; intros [| d cs] Hlen;
    try discriminate; cbn in *.
  - lia.
  - rewrite IH by lia. lia.
Qed.

Lemma weighted_sum_scale (l cs : list Z) (k : Z) :
  weighted_sum l (map (fun c => c * k) cs) = weighted_sum l cs * k.
Proof.
  revert cs. induction l as [| y l IH]; intros [| d cs]; cbn; try lia.
  rewrite IH. lia.
Qed.

Lemma map_Int_scale (cs : list Z) (k : Z) :
  map (fun c => (c * Int k)%num) (map Int cs)
  = map Int (map (fun c => c * k) cs).
Proof.
  rewrite !map_map. apply map_ext. intros c. apply num_mul_Int.
Qed.

(** The loop of [iteratedEuclid] from an integer state whose coefficients
    combine the elements seen so far into [g]. *)
Lemma iteratedEuclid_loop_Int (rest : list Z) :
  forall (seen cs : list Z) (g : Z),
    length cs = length seen ->
    weighted_sum seen cs = g ->
    Z.abs g = gcd_list seen ->
    Z.sgn g = lead_sign seen ->
    exists cs' : list Z,
      evaluates_within (euclid_budget rest)
        (fun fuel =>
           iteratedEuclid_loop fuel (map Int rest) (Some (Int g)) (map Int cs))
        (map Int cs')
      /\ length cs' = length (seen ++ rest)
      /\ weighted_sum (seen ++ rest) cs' = seen_sign_gcd (seen ++ rest).
Proof.
  induction rest as [| x rest IH]; intros seen cs g Hlen Hsum Habs Hsgn.
  - exists cs. rewrite app_nil_r. split; [| split].
    + intros fuel _. reflexivity.
    + exact Hlen.
    + unfold seen_sign_gcd. rewrite Hsum, <- Habs, <- Hsgn.
      destruct g; cbn; lia.
  - destruct (extendedEuclid_Int g x) as (z & Hinv & Hr & Hev).
    destruct (IH (seen ++ [x])
                 (map (fun c => c * zsOld z) cs ++ [ztOld z]) (zrOld z))
      as (cs' & Hrun & Hlen' & Hsum').
    + rewrite !length_app, length_map. cbn. lia.
    + rewrite weighted_sum_snoc by (rewrite length_map; exact Hlen).
      rewrite weighted_sum_scale, Hsum.
      rewrite <- (inv_old g x z Hinv). ring.
    + rewrite gcd_list_snoc, <- Habs, Z.gcd_abs_l.
      apply euclid_inv_final_gcd; assumption.
    + rewrite lead_sign_snoc, <- Hsgn.
      destruct (Z.eqb_spec x 0) as [E | Hx].
      * destruct (inv_zero g x z Hinv E) as [E' _]. now rewrite E'.
      * destruct (inv_sgn g x z Hinv Hx) as [_ Hs]. exact (Hs Hr).
    + exists cs'. rewrite <- !app_assoc in Hlen', Hsum'. cbn in Hlen', Hsum'.
      split; [| split; assumption].
      intros fuel Hfuel. cbn [euclid_budget fold_right] in Hfuel.
      fold (euclid_budget rest) in Hfuel.
      cbn [map iteratedEuclid_loop].
      rewrite (Hev fuel) by lia. cbn [bind result_of coefA coefB gcd].
      rewrite map_Int_scale.
      change [Int (ztOld z)] with (map Int [ztOld z]).
      rewrite <- map_app. apply Hrun. lia.
Qed.

Lemma gcd_list_nonneg (l : list Z) : 0 <= gcd_list l.
Proof.
  destruct l as [| x l]; cbn; [lia | apply Z.gcd_nonneg].
Qed.

Lemma lead_sign_range (l : list Z) :
  lead_sign l = 0 \/ lead_sign l = 1 \/ lead_sign l = -1.
Proof.
  induction l as [| x l IH] using rev_ind; [left; reflexivity |].
  rewrite lead_sign_snoc. destruct (x =? 0); [exact IH |].
  destruct x; cbn; auto.
Qed.

Lemma lead_sign_nonneg (l : list Z) :
  Forall (fun x => 0 <= x) l -> 0 <= lead_sign l.
Proof.
  induction l as [| x l IH] using rev_ind; intros H; [cbn; lia |].
  apply Forall_app in H. destruct H as [Hl Hx].
  rewrite lead_sign_snoc. destruct (x =? 0); [apply IH, Hl |].
  inversion Hx; subst. lia.
Qed.

Lemma lead_sign_zero_gcd (l : list Z) : lead_sign l = 0 -> gcd_list l = 0.
Proof.
  induction l as [| x l IH] using rev_ind; intros H; [reflexivity |].
  rewrite lead_sign_snoc in H. rewrite gcd_list_snoc.
  destruct (Z.eqb_spec x 0) as [E | Hx].
  - rewrite (IH H), E. reflexivity.
  - destruct x; cbn in H; lia.
Qed.




(** ** Combinations *)

Section CombinationsFacts.
Context {A : Type}.
Implicit Types (set l c : list A) (k : Z).

(** The defining equation of [kCombinations], as the code reads. *)
Lemma kCombinations_eq set k :
  kCombinations set k =
  if (k >? array_length set) || (k <=? 0) then []
  else if k =? array_length set then [set]
  else if k =? 1 then map (fun x => [x]) set
  else
    flat_map (fun i : nat =>
      let head := slice i (i + 1) set in
      let tailCombs := kCombinations (slice_from (i + 1) set) (k - 1) in
      map (fun c => head ++ c) tailCombs)
    (seq 0 (Z.to_nat (array_length set - k + 1))).
Proof.
  rewrite kCombinations_equation_1.
  destruct (sumbool_of_bool ((k >? array_length set) || (k <=? 0)))
    as [e | e]; cbn [kCombinations_unfold_clause_1]; rewrite e; reflexivity.
Qed.

Lemma sublists_of_size_short (n : nat) l :
  (length l < n)%nat -> sublists_of_size n l = [].
Proof.
  revert n. induction l as [| x l IH]; intros [| n] H; cbn in *;
    try lia; try reflexivity.
  rewrite (IH n), (IH (S n)) by lia. reflexivity.
Qed.

Lemma sublists_of_size_all l : sublists_of_size (length l) l = [l].
Proof.
  induction l as [| x l IH]; [reflexivity |].
  cbn. rewrite IH, sublists_of_size_short by lia. reflexivity.
Qed.

Lemma sublists_of_size_zero l : sublists_of_size 0 l = [[]].
Proof. destruct l; reflexivity. Qed.

Lemma sublists_of_size_one l :
  sublists_of_size 1 l = map (fun x => [x]) l.
Proof.
  induction l as [| x l IH]; [reflexivity |].
  cbn [sublists_of_size]. rewrite IH, sublists_of_size_zero. reflexivity.
Qed.

(** The loop of [kCombinations] over the position [i] of the first
    element taken enumerates the sublists of a given size. *)
Lemma sublists_of_size_by_first (n : nat) l :
  sublists_of_size (S n) l =
  flat_map (fun i : nat =>
    map (fun c => slice i (i + 1) l ++ c)
        (sublists_of_size n (slice_from (i + 1) l)))
    (seq 0 (length l - n)).
Proof.
  induction l as [| x l IH]; [reflexivity |].
  cbn [sublists_of_size].
  destruct (Nat.le_gt_cases n (length l)) as [Hle | Hgt].
  - replace (length (x :: l) - n)%nat with (S (length l - n))
      by (cbn [length]; lia).
    cbn [seq flat_map]. f_equal.
    rewrite <- seq_shift, flat_map_concat_map, map_map,
      <- flat_map_concat_map.
    exact IH.
  - replace (length (x :: l) - n)%nat with 0%nat by (cbn [length]; lia).
    rewrite !sublists_of_size_short by lia. reflexivity.
Qed.

Lemma flat_map_ext_in {B C : Type} (f g : B -> list C) (l : list B) :
  (forall x, In x l -> f x = g x) -> flat_map f l = flat_map g l.
Proof.
  intros H. rewrite !flat_map_concat_map. f_equal.
  apply map_ext_in, H.
Qed.

(** For [1 <= k <= set.length], [kCombinations(set, k)] is the list of
    the sublists of [set] with [k] elements, in the order above. *)
Lemma kCombinations_sublists (n : nat) :
  forall set,
    (1 <= n <= length set)%nat ->
    kCombinations set (Z.of_nat n) = sublists_of_size n set.
Proof.
  induction n as [| n IH]; intros set Hn; [lia |].
  rewrite kCombinations_eq. unfold array_length.
  destruct (Z.gtb_spec (Z.of_nat (S n)) (Z.of_nat (length set))); [lia |].
  destruct (Z.leb_spec (Z.of_nat (S n)) 0); [lia |].
  cbn [orb].
  destruct (Z.eqb_spec (Z.of_nat (S n)) (Z.of_nat (length set))) as [E | E].
  { apply Nat2Z.inj in E. rewrite E. symmetry. apply sublists_of_size_all. }
  destruct (Z.eqb_spec (Z.of_nat (S n)) 1) as [E1 | E1].
  { assert (n = 0%nat) as -> by lia. symmetry. apply sublists_of_size_one. }
  rewrite sublists_of_size_by_first.
  replace (Z.to_nat (Z.of_nat (length set) - Z.of_nat (S n) + 1))
    with (length set - n)%nat by lia.
  apply flat_map_ext_in. intros i Hi. apply in_seq in Hi. cbv zeta.
  replace (Z.of_nat (S n) - 1) with (Z.of_nat n) by lia.
  rewrite IH; [reflexivity |].
  unfold slice_from. rewrite length_skipn. lia.
Qed.
End CombinationsFacts.

Lemma choose_zero_r (n : nat) : choose n 0 = 1%nat.
Proof. destruct n; reflexivity. Qed.

Lemma choose_gt (n : nat) : forall k : nat, (n < k)%nat -> choose n k = 0%nat.
Proof.
  induction n as [| n IH]; intros [| k] H; try lia; [reflexivity |].
  cbn. rewrite !IH by lia. reflexivity.
Qed.

Lemma choose_diag (n : nat) : choose n n = 1%nat.
Proof.
  induction n as [| n IH]; [reflexivity |].
  cbn. rewrite IH, choose_gt by lia. reflexivity.
Qed.

Lemma list_sum_choose_S (n m : nat) :
  list_sum (map (choose n) (seq 0 (S m)))
  = (list_sum (map (choose n) (seq 0 m)) + choose n m)%nat.
Proof.
  rewrite seq_S, map_app, list_sum_app. cbn. lia.
Qed.

(** Pascal's rule on the sums of a row up to a column. *)
Lemma list_sum_choose_step (n m : nat) :
  list_sum (map (choose (S n)) (seq 0 (S (S m))))
  = (list_sum (map (choose n) (seq 0 (S m)))
     + list_sum (map (choose n) (seq 0 (S (S m)))))%nat.
Proof.
  induction m as [| m IH].
  - cbn. rewrite !choose_zero_r. lia.
  - rewrite (list_sum_choose_S (S n) (S (S m))), IH.
    rewrite (list_sum_choose_S n (S (S m))), (list_sum_choose_S n (S m)).
    cbn [choose]. lia.
Qed.

Lemma list_sum_choose_row (n : nat) :
  list_sum (map (choose n) (seq 0 (S n))) = (2 ^ n)%nat.
Proof.
  induction n as [| n IH]; [reflexivity |].
  rewrite list_sum_choose_step, (list_sum_choose_S n (S n)), IH.
  rewrite choose_gt by lia. cbn [Nat.pow]. lia.
Qed.

(** ** The table of binomial coefficients *)

Lemma pascal_table_BINOMIALS : pascal_table BINOMIALS.
Proof. split; [discriminate | reflexivity]. Qed.

Lemma summand_pascal_row (n k : nat) :
  (k <= n)%nat -> summand (pascal_row n) k = Int (Z.of_nat (choose n k)).
Proof.
  intros H. unfold summand, pascal_row.
  rewrite (nth_indep _ NaN (Int (Z.of_nat (choose n 0))))
    by (rewrite length_map, length_seq; lia).
  rewrite (map_nth (fun k => Int (Z.of_nat (choose n k)))).
  rewrite seq_nth by lia. reflexivity.
Qed.

Lemma binomial_body_pascal (table : list (list number)) :
  pascal_table table -> pascal_table (binomial_body table).
Proof.
  intros [Hne Htab]. split.
  { unfold binomial_body. intros E. apply app_eq_nil in E. destruct E; discriminate. }
  unfold binomial_body. rewrite length_app. cbn [length].
  rewrite Nat.add_1_r, seq_S, map_app. cbn [map Nat.add].
  rewrite <- Htab. f_equal. f_equal.
  destruct (length table) as [| m] eqn:Hlen.
  { destruct table; [contradiction | discriminate]. }
  replace (S m - 1)%nat with m by lia.
  assert (Hlast : nth m table [] = pascal_row m).
  { rewrite Htab.
    rewrite (nth_indep _ [] (pascal_row 0)) by (rewrite length_map, length_seq; lia).
    rewrite (map_nth pascal_row), seq_nth by lia. reflexivity. }
  rewrite Hlast. unfold pascal_row at 3.
  rewrite <- cons_seq, (seq_S m 1). cbn [map]. rewrite map_app. cbn [map app].
  rewrite choose_zero_r. f_equal. f_equal.
  - apply map_ext_in. intros i Hi. apply in_seq in Hi.
    rewrite !summand_pascal_row by lia. rewrite num_add_Int.
    destruct i as [| i]; [lia |].
    replace (S i - 1)%nat with i by lia. cbn [choose].
    rewrite Nat2Z.inj_add. reflexivity.
  - replace (1 + m)%nat with (S m) by lia. rewrite choose_diag. reflexivity.
Qed.

Lemma binomial_loop_pascal (fuel : nat) :
  forall (table : list (list number)) (n : nat),
    pascal_table table ->
    (n < length table + fuel)%nat ->
    pascal_table (binomial_loop fuel table n)
    /\ (n < length (binomial_loop fuel table n))%nat.
Proof.
  induction fuel as [| fuel IH]; intros table n Htab Hn; cbn [binomial_loop];
    destruct (Nat.leb_spec (length table) n) as [Hle | Hlt];
    try (split; [assumption | lia]).
  apply IH; [apply binomial_body_pascal, Htab |].
  unfold binomial_body. rewrite length_app. cbn [length]. lia.
Qed.

(** From every state of the table, [binomial(n, k)] with [k <= n] returns
    the binomial coefficient, and leaves a state of the table. *)
Lemma binomial_choose (table : list (list number)) (n k : nat) :
  pascal_table table -> (k <= n)%nat ->
  fst (binomial table n k) = Some (Int (Z.of_nat (choose n k)))
  /\ pascal_table (snd (binomial table n k)).
Proof.
  intros Htab Hk. unfold binomial. cbn [fst snd].
  destruct (binomial_loop_pascal (S n) table n Htab ltac:(lia)) as [[Hne Hp] Hlen].
  split; [| split; assumption].
  rewrite Hp.
  rewrite (nth_indep _ [] (pascal_row 0)) by (rewrite length_map, length_seq; lia).
  rewrite (map_nth pascal_row), seq_nth by lia. cbn [Nat.add].
  unfold pascal_row.
  rewrite nth_error_map, nth_error_nth' with (d := 0%nat) by (rewrite length_seq; lia).
  rewrite seq_nth by lia. reflexivity.
Qed.

Section CombinationsCount.
Context {A : Type}.
Implicit Types (set l c : list A) (k : Z).

Lemma length_sublists_of_size l :
  forall n : nat, length (sublists_of_size n l) = choose (length l) n.
Proof.
  induction l as [| x l IH]; intros [| n]; try reflexivity.
  cbn [sublists_of_size length choose].
  rewrite length_app, length_map, !IH. reflexivity.
Qed.

Lemma subseq_nil_l l : subseq [] l.
Proof. induction l; constructor; assumption. Qed.

Lemma sublists_of_size_sound l :
  forall n : nat,
    Forall (fun c => length c = n /\ subseq c l) (sublists_of_size n l).
Proof.
  induction l as [| x l IH]; intros [| n]; cbn [sublists_of_size].
  - repeat constructor.
  - constructor.
  - repeat constructor. apply subseq_nil_l.
  - apply Forall_app. split.
    + apply Forall_forall. intros c Hc. apply in_map_iff in Hc.
      destruct Hc as (c' & <- & Hc').
      pose proof (proj1 (Forall_forall _ _) (IH n) c' Hc') as [Hl Hs].
      split; [cbn; lia | constructor; exact Hs].
    + eapply Forall_impl; [| apply (IH (S n))].
      intros c [Hl Hs]. split; [exact Hl | constructor; exact Hs].
Qed.

Lemma combinations_sublists set :
  combinations set =
  flat_map (fun n : nat => sublists_of_size n set) (seq 1 (length set)).
Proof.
  unfold combinations. apply flat_map_ext_in.
  intros n Hn. apply in_seq in Hn. apply kCombinations_sublists. lia.
Qed.

Lemma length_combinations set :
  (length (combinations set) + 1 = 2 ^ length set)%nat.
Proof.
  rewrite combinations_sublists, length_flat_map.
  rewrite <- (list_sum_choose_row (length set)).
  cbn [seq map list_sum]. rewrite choose_zero_r.
  rewrite (map_ext _ (choose (length set)))
    by (intros n; apply length_sublists_of_size).
  unfold list_sum. cbn [fold_right]. lia.
Qed.

End CombinationsCount.


(* ================================================================== *)
(** * Further properties of [src/index.ts] *)
(* ================================================================== *)

(** ** Comparisons *)

Lemma num_lt_Fin (p q : Q) : num_lt (Fin p) (Fin q) = true <-> (p < q)%Q.
Proof.
  unfold num_lt. rewrite Qlt_alt.
  destruct (p ?= q)%Q; split; intros H; try reflexivity; discriminate.
Qed.

Lemma num_lt_Fin_false (p q : Q) :
  num_lt (Fin p) (Fin q) = false <-> (q <= p)%Q.
Proof.
  rewrite <- Bool.not_true_iff_false, num_lt_Fin. split.
  - apply Qnot_lt_le.
  - apply Qle_not_lt.
Qed.

Lemma num_lt_irrefl (x : number) : num_lt x x = false.
Proof.
  destruct x as [p | | |]; try reflexivity.
  apply num_lt_Fin_false, Qle_refl.
Qed.

(** ** [clamp] *)



(** X2.  Unless the upper bound is below the lower one, clamping twice is
    clamping once, for all numbers, [NaN] and the infinities included. *)
Theorem clamp_idempotent (minValue maxValue value : number) :
  num_lt maxValue minValue = false ->
  clamp minValue maxValue (clamp minValue maxValue value)
  = clamp minValue maxValue value.
Proof.
  intros Hb. unfold clamp at 2 3. unfold num_gt.
  destruct (num_lt value minValue) eqn:E1.
  - unfold clamp, num_gt. now rewrite num_lt_irrefl, Hb.
  - destruct (num_lt maxValue value) eqn:E2.
    + unfold clamp, num_gt. now rewrite Hb, num_lt_irrefl.
    + unfold clamp, num_gt. now rewrite E1, E2.
Qed.

Lemma clamp_idempotent_witness :
  num_lt PosInf (Int 0) = false
  /\ clamp (Int 0) PosInf (clamp (Int 0) PosInf (Int (-3)))
     = clamp (Int 0) PosInf (Int (-3)).
Proof.
  assert (H0 : num_lt PosInf (Int 0) = false) by reflexivity.
  split; [exact H0 | exact (clamp_idempotent (Int 0) PosInf (Int (-3)) H0)].
Defined.



(** ** [dot] and [norm] *)

Lemma sign_mul_comm (c d : comparison) : sign_mul c d = sign_mul d c.
Proof. destruct c, d; reflexivity. Qed.

Lemma num_mul_comm (x y : number) : (x * y)%num = (y * x)%num.
Proof.
  destruct x as [p | | |], y as [q | | |]; try reflexivity;
    unfold num_mul, num_sign;
    try (rewrite sign_mul_comm; reflexivity).
  f_equal. apply Qred_complete, Qmult_comm.
Qed.

Lemma dot_loop_comm (a : list number) :
  forall (b : list number) (result : number),
    dot_loop result a b = dot_loop result b a.
Proof.
  induction a as [| x a IH]; intros [| y b] result; try reflexivity.
  cbn [dot_loop]. rewrite (num_mul_comm x y). apply IH.
Qed.

Lemma dot_loop_Int (a : list Z) :
  forall (b : list Z) (result : Z),
    dot_loop (Int result) (map Int a) (map Int b)
    = Int (result + weighted_sum a b).
Proof.
  induction a as [| x a IH]; intros [| y b] result; cbn [map dot_loop weighted_sum];
    try (now rewrite Z.add_0_r).
  rewrite num_mul_Int, num_add_Int, IH. f_equal. ring.
Qed.

Lemma dot_loop_app_r (a : list number) :
  forall (b extra : list number) (result : number),
    (length a <= length b)%nat ->
    dot_loop result a (b ++ extra) = dot_loop result a b.
Proof.
  induction a as [| x a IH]; intros [| y b] extra result H.
  - destruct extra; reflexivity.
  - reflexivity.
  - cbn in H. lia.
  - cbn in *. apply IH. lia.
Qed.

(** X4.  [dot] is symmetric in its two arrays, for all numbers. *)
Theorem dot_comm (a b : list number) : dot a b = dot b a.
Proof. apply dot_loop_comm. Qed.

(** X5.  [dot] reads both arrays up to the shorter length only: elements
    of the longer array past that length do not change the result. *)
Theorem dot_ignores_tail (a b extra : list number) :
  (length a <= length b)%nat ->
  dot a (b ++ extra) = dot a b /\ dot (b ++ extra) a = dot b a.
Proof.
  intros H. unfold dot.
  rewrite (dot_loop_comm (b ++ extra) a), (dot_loop_comm b a).
  split; apply dot_loop_app_r, H.
Qed.

Lemma dot_ignores_tail_witness :
  (length [Int 1; Int 2] <= length [Int 3; Int 4])%nat
  /\ dot [Int 1; Int 2] ([Int 3; Int 4] ++ [NaN]) = Int 11
  /\ dot [Int 1; Int 2] ([Int 3; Int 4] ++ [NaN]) = dot [Int 1; Int 2] [Int 3; Int 4]
  /\ dot ([Int 3; Int 4] ++ [NaN]) [Int 1; Int 2] = dot [Int 3; Int 4] [Int 1; Int 2].
Proof.
  assert (H0 : (length [Int 1; Int 2] <= length [Int 3; Int 4])%nat)
    by (cbn; lia).
  split; [exact H0 |]. split; [vm_compute; reflexivity |].
  exact (dot_ignores_tail [Int 1; Int 2] [Int 3; Int 4] [NaN] H0).
Defined.

(** From integer inputs [iteratedEuclid] returns integer coefficients
    whose weighted sum is the signed gcd of the sequence. *)
Lemma iteratedEuclid_Int (params : list Z) :
  exists coefs : list Z,
    evaluates_within (euclid_budget params)
      (fun fuel => iteratedEuclid fuel (map Int params)) (map Int coefs)
    /\ length coefs = length params
    /\ weighted_sum params coefs = seen_sign_gcd params.
Proof.
  destruct params as [| x rest].
  - exists []. split; [intros fuel _; reflexivity | split; reflexivity].
  - destruct (iteratedEuclid_loop_Int rest [x] [1] x)
      as (cs' & Hrun & Hlen & Hsum).
    + reflexivity.
    + cbn. lia.
    + cbn. apply eq_sym, Z.gcd_0_r.
    + unfold lead_sign. cbn. destruct (Z.eqb_spec x 0) as [-> | _]; reflexivity.
    + exists cs'. split; [| split; assumption].
      intros fuel Hfuel. cbn [euclid_budget fold_right] in Hfuel.
      fold (euclid_budget rest) in Hfuel.
      unfold iteratedEuclid. cbn [map iteratedEuclid_loop app].
      apply (Hrun fuel). lia.
Qed.


Lemma norm_euclidean_fold (array : list number) :
  forall result : number,
    fold_left (norm_body euclidean) array result
    = dot_loop result array array.
Proof.
  induction array as [| x array IH]; intros result; [reflexivity |].
  cbn [fold_left dot_loop norm_body]. apply IH.
Qed.

(** X7.  The euclidean norm is the square root of the dot product of the
    array with itself, whatever [Math.sqrt] computes. *)
Theorem norm_euclidean_dot (Math_sqrt : number -> number)
    (array : list number) :
  norm Math_sqrt array euclidean = Math_sqrt (dot array array).
Proof.
  unfold norm, dot. now rewrite norm_euclidean_fold.
Qed.

Lemma norm_fold_NaN (type : NormType) (array : list number) :
  fold_left (norm_body type) array NaN = NaN.
Proof.
  induction array as [| x array IH]; [reflexivity |].
  cbn [fold_left]. destruct type; cbn [norm_body]; exact IH.
Qed.

Lemma num_add_NaN_r (x : number) : (x + NaN)%num = NaN.
Proof. destruct x; reflexivity. Qed.

Lemma Math_max_NaN_r (x : number) : Math_max x NaN = NaN.
Proof. destruct x; reflexivity. Qed.

Lemma norm_fold_In_NaN (type : NormType) (array : list number) :
  In NaN array ->
  forall result : number, fold_left (norm_body type) array result = NaN.
Proof.
  induction array as [| x array IH]; intros H result; [contradiction |].
  cbn [fold_left]. destruct H as [-> | H].
  - assert (E : norm_body type result NaN = NaN).
    { destruct type; cbn [norm_body Math_abs num_mul].
      - apply num_add_NaN_r.
      - apply num_add_NaN_r.
      - apply Math_max_NaN_r. }
    rewrite E. apply norm_fold_NaN.
  - apply IH, H.
Qed.

(** X8.  An array with a [NaN] in it has the norm [NaN] for the taxicab
    and the maximum norm ([Math.max] does not skip a [NaN]), and
    [Math.sqrt(NaN)] for the euclidean one. *)
Theorem norm_of_NaN (Math_sqrt : number -> number) (array : list number) :
  In NaN array ->
  norm Math_sqrt array taxicab = NaN
  /\ norm Math_sqrt array maximum = NaN
  /\ norm Math_sqrt array euclidean = Math_sqrt NaN.
Proof.
  intros H. unfold norm. now rewrite !norm_fold_In_NaN.
Qed.

Lemma norm_of_NaN_witness :
  In NaN [Int 3; NaN; Int 4]
  /\ norm (fun x => x) [Int 3; NaN; Int 4] taxicab = NaN
  /\ norm (fun x => x) [Int 3; NaN; Int 4] maximum = NaN
  /\ norm (fun x => x) [Int 3; NaN; Int 4] euclidean = NaN.
Proof.
  assert (H0 : In NaN [Int 3; NaN; Int 4]) by (right; left; reflexivity).
  split; [exact H0 |].
  exact (norm_of_NaN (fun x => x) [Int 3; NaN; Int 4] H0).
Defined.

Lemma Math_max_Fin (p q : Q) :
  exists m : Q, Math_max (Fin p) (Fin q) = Fin m
    /\ (p <= m)%Q /\ (q <= m)%Q /\ (m = p \/ m = q).
Proof.
  unfold Math_max. destruct (num_lt (Fin p) (Fin q)) eqn:E.
  - apply num_lt_Fin in E. exists q.
    split; [reflexivity |]. split; [apply Qlt_le_weak, E |].
    split; [apply Qle_refl | right; reflexivity].
  - apply num_lt_Fin_false in E. exists p.
    split; [reflexivity |]. split; [apply Qle_refl |].
    split; [exact E | left; reflexivity].
Qed.

(** The accumulations of the maximum and of the taxicab norm on finite
    numbers, started from [0 <= r <= s]. *)
Lemma norm_fold_finite (qs : list Q) :
  forall r s : Q,
    (0 <= r)%Q -> (r <= s)%Q ->
    exists m t : Q,
      fold_left (norm_body maximum) (map Fin qs) (Fin r) = Fin m
      /\ fold_left (norm_body taxicab) (map Fin qs) (Fin s) = Fin t
      /\ (r <= m)%Q /\ (m <= t)%Q
      /\ Forall (fun q => (Qabs q <= m)%Q) qs.
Proof.
  induction qs as [| q qs IH]; intros r s Hr Hrs.
  - exists r, s. cbn. repeat split; try assumption; try apply Qle_refl.
    constructor.
  - cbn [map fold_left norm_body Math_abs num_add].
    destruct (Math_max_Fin r (Qred (Qabs q))) as (r' & E & H1 & H2 & Hcase).
    rewrite E.
    pose proof (Qabs_nonneg q) as Hq.
    pose proof (Qred_correct (Qabs q)) as Hq'.
    rewrite Hq' in H2.
    assert (Hr's : (r' <= s + Qabs q)%Q).
    { destruct Hcase as [-> | ->]; [| rewrite Hq']; lra. }
    destruct (IH r' (Qred (s + Qred (Qabs q))))
      as (m & t & Hm & Ht & Hrm & Hmt & Hall).
    + apply (Qle_trans _ r); assumption.
    + rewrite !Qred_correct. exact Hr's.
    + exists m, t. split; [exact Hm |]. split; [exact Ht |].
      split; [apply (Qle_trans _ r'); assumption |]. split; [exact Hmt |].
      constructor; [apply (Qle_trans _ r'); assumption | exact Hall].
Qed.


(** ** [arraysEqual] *)

Lemma arraysEqual_loop_Forall2 {A : Type} (strict_equal : A -> A -> bool)
    (a : list A) :
  forall b : list A,
    length a = length b ->
    (arraysEqual_loop strict_equal a b = true
     <-> Forall2 (fun x y => strict_equal x y = true) a b).
Proof.
  induction a as [| x a IH]; intros [| y b] Hlen; try discriminate.
  - split; [constructor | reflexivity].
  - cbn [arraysEqual_loop]. injection Hlen as Hlen.
    destruct (strict_equal x y) eqn:E; cbn [negb].
    + rewrite (IH b Hlen). split.
      * intros H. constructor; assumption.
      * intros H. inversion H; assumption.
    + split; [discriminate |].
      intros H. inversion H; subst. congruence.
Qed.

(** X10.  [arraysEqual(a, b)] is true exactly when [a] and [b] are the
    same object, or have the same length and elements that are [===]
    index by index. *)
Theorem arraysEqual_true_iff {A : Type} (strict_equal : A -> A -> bool)
    (a b : AnyArray A) :
  arraysEqual strict_equal a b = true
  <-> object_id a = object_id b
      \/ Forall2 (fun x y => strict_equal x y = true) (items a) (items b).
Proof.
  unfold arraysEqual.
  destruct (Nat.eqb_spec (object_id a) (object_id b)) as [Hid | Hid].
  - split; [intros _; left; exact Hid | reflexivity].
  - destruct (Nat.eqb_spec (length (items a)) (length (items b)))
      as [Hlen | Hlen]; cbn [negb].
    + rewrite (arraysEqual_loop_Forall2 _ _ _ Hlen).
      split; [intros H; right; exact H | intros [H | H]; [contradiction | exact H]].
    + split; [discriminate |].
      intros [H | H]; [contradiction |].
      apply Forall2_length in H. contradiction.
Qed.

(** X11.  An array of numbers with a [NaN] in it is equal to itself, by
    the identity test, and to no other array object, not even to an
    element-wise copy: [NaN !== NaN]. *)
Theorem arraysEqual_NaN (a b : AnyArray number) :
  In NaN (items a) ->
  arraysEqual strict_eq a a = true
  /\ (object_id a <> object_id b -> arraysEqual strict_eq a b = false).
Proof.
  intros Hnan. split.
  - unfold arraysEqual. now rewrite Nat.eqb_refl.
  - intros Hid. unfold arraysEqual.
    destruct (Nat.eqb_spec (object_id a) (object_id b)); [contradiction |].
    destruct (Nat.eqb_spec (length (items a)) (length (items b)))
      as [Hlen | Hlen]; cbn [negb]; [| reflexivity].
    apply Bool.not_true_iff_false. intros H.
    apply (arraysEqual_loop_Forall2 _ _ _ Hlen) in H. clear Hlen.
    revert Hnan. induction H as [| x y l l' Hxy _ IH]; intros Hnan.
    + contradiction.
    + destruct Hnan as [-> | Hnan]; [discriminate | exact (IH Hnan)].
Qed.

Lemma arraysEqual_NaN_witness :
  In NaN (items (mkArray 1 [Int 1; NaN]))
  /\ arraysEqual strict_eq (mkArray 1 [Int 1; NaN]) (mkArray 1 [Int 1; NaN])
     = true
  /\ ((1 <> 2)%nat ->
      arraysEqual strict_eq (mkArray 1 [Int 1; NaN]) (mkArray 2 [Int 1; NaN])
      = false).
Proof.
  assert (H0 : In NaN (items (mkArray 1 [Int 1; NaN])))
    by (right; left; reflexivity).
  split; [exact H0 |].
  exact (arraysEqual_NaN (mkArray 1 [Int 1; NaN]) (mkArray 2 [Int 1; NaN]) H0).
Defined.

Lemma strict_eq_sym (x y : number) : strict_eq x y = strict_eq y x.
Proof.
  destruct x, y; try reflexivity. apply Qeq_bool_comm.
Qed.

Lemma arraysEqual_loop_sym (a : list number) :
  forall b : list number,
    arraysEqual_loop strict_eq a b = arraysEqual_loop strict_eq b a.
Proof.
  induction a as [| x a IH]; intros [| y b]; try reflexivity.
  cbn [arraysEqual_loop]. rewrite (strict_eq_sym x y), (IH b). reflexivity.
Qed.

(** X12.  On arrays of numbers [arraysEqual] does not depend on the order
    of its arguments. *)
Theorem arraysEqual_sym (a b : AnyArray number) :
  arraysEqual strict_eq a b = arraysEqual strict_eq b a.
Proof.
  unfold arraysEqual.
  rewrite (Nat.eqb_sym (object_id b)), (Nat.eqb_sym (length (items b))).
  now rewrite arraysEqual_loop_sym.
Qed.

(** ** [FractionSet] *)

Section FractionSetFacts.
Context {Fraction : Type}.
Variable same : Fraction -> Fraction -> bool.
Variable equals : Fraction -> Fraction -> bool.

(** [same] is the identity of objects, and a fraction [equals] itself. *)
Hypothesis same_spec : forall x y : Fraction, same x y = true <-> x = y.
Hypothesis equals_refl : forall x : Fraction, equals x x = true.

Lemma has_false_iff (value : Fraction) (this : list Fraction) :
  FractionSet.has equals value this = false
  <-> Forall (fun other => equals other value = false) this.
Proof.
  unfold FractionSet.has. induction this as [| x s IH]; cbn [existsb].
  - split; [constructor | reflexivity].
  - rewrite Bool.orb_false_iff, IH. split.
    + intros [H1 H2]. constructor; assumption.
    + intros H. inversion H; subst. split; assumption.
Qed.

Lemma has_true_iff (value : Fraction) (this : list Fraction) :
  FractionSet.has equals value this = true
  <-> exists other, In other this /\ equals other value = true.
Proof. apply existsb_exists. Qed.

Lemma super_add_not_has (value : Fraction) (this : list Fraction) :
  FractionSet.has equals value this = false ->
  FractionSet.super_add same value this = this ++ [value].
Proof.
  intros H. unfold FractionSet.super_add.
  destruct (existsb (fun x => same x value) this) eqn:E; [| reflexivity].
  apply existsb_exists in E. destruct E as (x & Hin & Hx).
  apply same_spec in Hx. subst x.
  apply has_false_iff in H.
  pose proof (proj1 (Forall_forall _ _) H value Hin) as Hv. cbn in Hv.
  rewrite equals_refl in Hv. discriminate.
Qed.

(** X13.  [add] leaves the set as it is when it has a member equal to the
    value, and otherwise appends the value; afterwards [has] is true of
    the value, and every value it was true of before. *)
Theorem FractionSet_add_has (value : Fraction) (this : list Fraction) :
  (FractionSet.has equals value this = true ->
   FractionSet.add same equals value this = this)
  /\ (FractionSet.has equals value this = false ->
      FractionSet.add same equals value this = this ++ [value])
  /\ FractionSet.has equals value (FractionSet.add same equals value this)
     = true
  /\ (forall w : Fraction,
        FractionSet.has equals w this = true ->
        FractionSet.has equals w (FractionSet.add same equals value this)
        = true).
Proof.
  unfold FractionSet.add.
  destruct (FractionSet.has equals value this) eqn:E.
  - split; [reflexivity |]. split; [discriminate |].
    split; [exact E | auto].
  - rewrite (super_add_not_has _ _ E).
    split; [discriminate |]. split; [reflexivity |].
    unfold FractionSet.has. split.
    + rewrite existsb_app. cbn. rewrite equals_refl.
      now rewrite Bool.orb_true_r.
    + intros w Hw. rewrite existsb_app. unfold FractionSet.has in Hw.
      now rewrite Hw.
Qed.

Lemma pairwise_unequal_snoc (value : Fraction) (this : list Fraction) :
  pairwise_unequal equals this ->
  Forall (fun other => equals other value = false) this ->
  pairwise_unequal equals (this ++ [value]).
Proof.
  induction this as [| x s IH]; intros Hp Hall; cbn.
  - split; [constructor | exact I].
  - destruct Hp as [Hx Hs]. inversion Hall; subst. split.
    + apply Forall_app. split; [exact Hx | repeat constructor; assumption].
    + apply IH; assumption.
Qed.

Lemma pairwise_unequal_filter (f : Fraction -> bool) (this : list Fraction) :
  pairwise_unequal equals this -> pairwise_unequal equals (filter f this).
Proof.
  induction this as [| x s IH]; intros Hp; [exact I |].
  destruct Hp as [Hx Hs]. cbn [filter].
  destruct (f x); [| exact (IH Hs)].
  split; [| exact (IH Hs)].
  apply Forall_forall. intros y Hy. apply filter_In in Hy.
  exact (proj1 (Forall_forall _ _) Hx y (proj1 Hy)).
Qed.

(** X14.  A set built with [add] and [delete] never holds two members
    that are [equals]: the empty set has none, and both methods keep it
    so. *)
Theorem FractionSet_members_unequal (value : Fraction)
    (this : list Fraction) :
  pairwise_unequal equals this ->
  pairwise_unequal equals (FractionSet.add same equals value this)
  /\ pairwise_unequal equals (fst (FractionSet.delete same equals value this)).
Proof.
  intros Hp. split.
  - unfold FractionSet.add.
    destruct (FractionSet.has equals value this) eqn:E; [exact Hp |].
    rewrite (super_add_not_has _ _ E).
    apply pairwise_unequal_snoc; [exact Hp | apply has_false_iff, E].
  - unfold FractionSet.delete.
    destruct (find (fun other => equals other value) this); [| exact Hp].
    cbn [FractionSet.super_delete fst]. apply pairwise_unequal_filter, Hp.
Qed.

(** [equals] is symmetric and transitive. *)
Hypothesis equals_sym : forall x y : Fraction, equals x y = equals y x.
Hypothesis equals_trans :
  forall x y z : Fraction,
    equals x y = true -> equals y z = true -> equals x z = true.

Lemma pairwise_unequal_In (this : list Fraction) :
  pairwise_unequal equals this ->
  forall x y : Fraction,
    In x this -> In y this -> x <> y -> equals x y = false.
Proof.
  induction this as [| z s IH]; intros Hp x y Hx Hy Hxy; [contradiction |].
  destruct Hp as [Hz Hs]. destruct Hx as [-> | Hx], Hy as [-> | Hy].
  - contradiction.
  - exact (proj1 (Forall_forall _ _) Hz y Hy).
  - rewrite equals_sym. exact (proj1 (Forall_forall _ _) Hz x Hx).
  - exact (IH Hs x y Hx Hy Hxy).
Qed.

(** X15.  On a set with no two equal members, [delete] removes exactly
    the members equal to the value and returns whether there was one;
    afterwards [has] is false of the value. *)
Theorem FractionSet_delete_has (value : Fraction) (this : list Fraction) :
  pairwise_unequal equals this ->
  snd (FractionSet.delete same equals value this)
  = FractionSet.has equals value this
  /\ FractionSet.has equals value
       (fst (FractionSet.delete same equals value this)) = false
  /\ (forall w : Fraction,
        In w (fst (FractionSet.delete same equals value this))
        <-> In w this /\ equals w value = false).
Proof.
  intros Hp. unfold FractionSet.delete.
  destruct (find (fun other => equals other value) this) as [other |] eqn:E.
  - apply find_some in E. destruct E as [Hin Heq].
    cbn [FractionSet.super_delete fst snd].
    assert (Hmem : forall w : Fraction,
               In w (filter (fun x => negb (same x other)) this)
               <-> In w this /\ equals w value = false).
    { intros w. rewrite filter_In. split.
      - intros [Hw Hne]. split; [exact Hw |].
        apply Bool.negb_true_iff in Hne.
        assert (Hwo : w <> other).
        { intros ->. rewrite (proj2 (same_spec other other) eq_refl) in Hne.
          discriminate. }
        destruct (equals w value) eqn:Ew; [| reflexivity].
        rewrite <- (pairwise_unequal_In this Hp w other Hw Hin Hwo).
        symmetry. apply (equals_trans w value other); [exact Ew |].
        rewrite equals_sym. exact Heq.
      - intros [Hw Hne]. split; [exact Hw |].
        apply Bool.negb_true_iff. destruct (same w other) eqn:Es; [| reflexivity].
        apply same_spec in Es. subst w. congruence. }
    split; [| split; [| exact Hmem]].
    + assert (H1 : existsb (fun x => same x other) this = true).
      { apply existsb_exists. exists other. split; [exact Hin |].
        now apply same_spec. }
      rewrite H1. symmetry. apply has_true_iff. exists other. auto.
    + apply has_false_iff, Forall_forall. intros w Hw.
      exact (proj2 (proj1 (Hmem w) Hw)).
  - cbn [fst snd].
    assert (Hall : Forall (fun other => equals other value = false) this).
    { apply Forall_forall. intros w Hw.
      exact (find_none _ _ E w Hw). }
    split; [symmetry; apply has_false_iff, Hall |].
    split; [apply has_false_iff, Hall |].
    intros w. split; [| tauto].
    intros Hw. split; [exact Hw |].
    exact (proj1 (Forall_forall _ _) Hall w Hw).
Qed.
End FractionSetFacts.

Lemma same_object_spec (x y : fraction_object) :
  same_object x y = true <-> x = y.
Proof.
  destruct x as [i [n d]], y as [j [m e]]. unfold same_object. cbn.
  rewrite !Bool.andb_true_iff, Nat.eqb_eq, Z.eqb_eq, Pos.eqb_eq. split.
  - intros [[-> ->] ->]. reflexivity.
  - intros H. injection H as -> -> ->. auto.
Qed.

Lemma equals_value_refl (x : fraction_object) : equals_value x x = true.
Proof. apply Qeq_bool_refl. Qed.

Lemma equals_value_sym (x y : fraction_object) :
  equals_value x y = equals_value y x.
Proof. apply Qeq_bool_comm. Qed.

Lemma equals_value_trans (x y z : fraction_object) :
  equals_value x y = true -> equals_value y z = true ->
  equals_value x z = true.
Proof. apply Qeq_bool_trans. Qed.

(** Adding [2/4] to a set that holds [1/2] changes nothing; adding [1/3]
    appends it. *)
Lemma FractionSet_add_has_witness :
  FractionSet.add same_object equals_value (7%nat, 2 # 4) [(1%nat, 1 # 2)]
  = [(1%nat, 1 # 2)]
  /\ FractionSet.add same_object equals_value (8%nat, 1 # 3) [(1%nat, 1 # 2)]
     = [(1%nat, 1 # 2); (8%nat, 1 # 3)]
  /\ FractionSet.has equals_value (8%nat, 1 # 3)
       (FractionSet.add same_object equals_value (8%nat, 1 # 3)
          [(1%nat, 1 # 2)]) = true.
Proof.
  destruct (FractionSet_add_has same_object equals_value
              same_object_spec equals_value_refl
              (7%nat, 2 # 4) [(1%nat, 1 # 2)]) as (Hkeep & _).
  destruct (FractionSet_add_has same_object equals_value
              same_object_spec equals_value_refl
              (8%nat, 1 # 3) [(1%nat, 1 # 2)]) as (_ & Happ & Hhas & _).
  split; [exact (Hkeep eq_refl) |].
  split; [exact (Happ eq_refl) | exact Hhas].
Defined.

Lemma FractionSet_members_unequal_witness :
  pairwise_unequal equals_value [(1%nat, 1 # 2); (2%nat, 1 # 3)]
  /\ pairwise_unequal equals_value
       (FractionSet.add same_object equals_value (3%nat, 2 # 6)
          [(1%nat, 1 # 2); (2%nat, 1 # 3)])
  /\ pairwise_unequal equals_value
       (fst (FractionSet.delete same_object equals_value (3%nat, 2 # 6)
               [(1%nat, 1 # 2); (2%nat, 1 # 3)])).
Proof.
  assert (H0 : pairwise_unequal equals_value
                 [(1%nat, 1 # 2); (2%nat, 1 # 3)])
    by (cbn; repeat constructor).
  split; [exact H0 |].
  exact (FractionSet_members_unequal same_object equals_value
           same_object_spec equals_value_refl
           (3%nat, 2 # 6) [(1%nat, 1 # 2); (2%nat, 1 # 3)] H0).
Defined.

(** Deleting [2/6] from a set that holds [1/2] and [1/3] removes the
    member [1/3]. *)
Lemma FractionSet_delete_has_witness :
  pairwise_unequal equals_value [(1%nat, 1 # 2); (2%nat, 1 # 3)]
  /\ FractionSet.delete same_object equals_value (3%nat, 2 # 6)
       [(1%nat, 1 # 2); (2%nat, 1 # 3)]
     = ([(1%nat, 1 # 2)], true)
  /\ FractionSet.has equals_value (3%nat, 2 # 6)
       (fst (FractionSet.delete same_object equals_value (3%nat, 2 # 6)
               [(1%nat, 1 # 2); (2%nat, 1 # 3)])) = false.
Proof.
  assert (H0 : pairwise_unequal equals_value
                 [(1%nat, 1 # 2); (2%nat, 1 # 3)])
    by (cbn; repeat constructor).
  split; [exact H0 |]. split; [reflexivity |].
  exact (proj1 (proj2 (FractionSet_delete_has same_object equals_value
           same_object_spec equals_value_sym equals_value_trans
           (3%nat, 2 # 6) [(1%nat, 1 # 2); (2%nat, 1 # 3)] H0))).
Defined.

(** ** More on [extendedEuclid] and [div] *)


Lemma euclid_loop_NaN (fuel : nat) :
  forall v : Vars.vars, Vars.r v = NaN -> euclid_loop fuel v = OutOfFuel.
Proof.
  induction fuel as [| fuel IH]; intros v Hr; cbn [euclid_loop]; rewrite Hr.
  - reflexivity.
  - cbn [strict_neq strict_eq negb Int]. apply IH.
    unfold euclid_body. cbn [Vars.r]. rewrite Hr.
    unfold div. destruct (Vars.rOld v); reflexivity.
Qed.

Lemma Qcompare_zero_Eq (q : Q) : Qeq_bool q 0 = false -> (q ?= 0)%Q <> Eq.
Proof.
  intros H E. apply Qeq_alt in E. apply Qeq_eq_bool in E. congruence.
Qed.

(** After one iteration from an infinite input the remainder is [NaN]. *)
Lemma euclid_body_infinite (a b : number) :
  isNaN a = false -> isNaN b = false ->
  is_infinite a = true \/ is_infinite b = true ->
  (b !== Int 0)%num = true ->
  Vars.r (euclid_body (euclid_init a b)) = NaN.
Proof.
  intros Ha Hb Hinf Hnz.
  unfold euclid_body, euclid_init, div. cbn [Vars.rOld Vars.r].
  destruct a as [p | | |], b as [q | | |]; try discriminate;
    try reflexivity;
    try (destruct Hinf; discriminate).
  - unfold strict_neq, strict_eq, Int in Hnz.
    apply Bool.negb_true_iff in Hnz.
    change (inject_Z 0) with 0%Q in Hnz.
    pose proof (Qcompare_zero_Eq q Hnz) as Hq.
    unfold num_div. rewrite Hnz. cbn [num_sign sign_mul].
    destruct (q ?= 0)%Q eqn:E; [contradiction | |];
      cbn [sign_mul inf_of_sign Math_floor num_mul num_sign];
      rewrite E; reflexivity.
  - unfold strict_neq, strict_eq, Int in Hnz.
    apply Bool.negb_true_iff in Hnz.
    change (inject_Z 0) with 0%Q in Hnz.
    pose proof (Qcompare_zero_Eq q Hnz) as Hq.
    unfold num_div. rewrite Hnz. cbn [num_sign sign_mul].
    destruct (q ?= 0)%Q eqn:E; [contradiction | |];
      cbn [sign_mul inf_of_sign Math_floor num_mul num_sign];
      rewrite E; reflexivity.
Qed.

(** X17.  With an infinite argument and [b !== 0], [extendedEuclid] does
    not throw and does not return: the remainder is [NaN] after the first
    iteration and stays so, and the loop runs on whatever the number of
    iterations allowed. *)
Theorem extendedEuclid_infinite_diverges (fuel : nat) (a b : number) :
  isNaN a = false -> isNaN b = false ->
  is_infinite a = true \/ is_infinite b = true ->
  (b !== Int 0)%num = true ->
  extendedEuclid fuel a b = OutOfFuel.
Proof.
  intros Ha Hb Hinf Hnz. unfold extendedEuclid. rewrite Ha, Hb. cbn [orb].
  assert (E : euclid_loop fuel (euclid_init a b) = OutOfFuel);
    [| now rewrite E].
  destruct fuel as [| fuel]; cbn [euclid_loop euclid_init Vars.r];
    rewrite Hnz; [reflexivity |].
  apply euclid_loop_NaN.
  exact (euclid_body_infinite a b Ha Hb Hinf Hnz).
Qed.

Lemma extendedEuclid_infinite_diverges_witness :
  isNaN PosInf = false /\ isNaN (Int 3) = false
  /\ (is_infinite PosInf = true \/ is_infinite (Int 3) = true)
  /\ (Int 3 !== Int 0)%num = true
  /\ extendedEuclid 1000 PosInf (Int 3) = OutOfFuel.
Proof.
  assert (H1 : isNaN PosInf = false) by reflexivity.
  assert (H2 : isNaN (Int 3) = false) by reflexivity.
  assert (H3 : is_infinite PosInf = true \/ is_infinite (Int 3) = true)
    by (left; reflexivity).
  assert (H4 : (Int 3 !== Int 0)%num = true) by reflexivity.
  do 4 (split; [assumption |]).
  exact (extendedEuclid_infinite_diverges 1000 PosInf (Int 3) H1 H2 H3 H4).
Defined.

(** X18.  A zero argument: [extendedEuclid(a, 0)] returns at once, with
    the gcd field [a] itself and the coefficients [1, 0], for every [a]
    that is not [NaN]; [extendedEuclid(0, b)] for an integer [b <> 0]
    returns after one iteration, with the gcd field [b] itself and the
    coefficients [0, 1].  The sign of the nonzero argument is kept. *)
Theorem extendedEuclid_zero_argument (fuel : nat) (a : number) (b : Z) :
  isNaN a = false -> b <> 0 ->
  extendedEuclid fuel a (Int 0)
  = Returned {| coefA := Int 1; coefB := Int 0; gcd := a;
                quotientA := Int 1; quotientB := Int 0 |}
  /\ extendedEuclid (S fuel) (Int 0) (Int b)
     = Returned {| coefA := Int 0; coefB := Int 1; gcd := Int b;
                   quotientA := Int 0; quotientB := Int 1 |}.
Proof.
  intros Ha Hb. split.
  - unfold extendedEuclid. rewrite Ha. cbn [isNaN Int orb].
    destruct fuel; reflexivity.
  - unfold extendedEuclid. cbn [isNaN Int orb].
    change (euclid_init (Int 0) (Int b)) with (Vars_of (zinit 0 b)).
    cbn [euclid_loop].
    change (Vars.r (Vars_of (zinit 0 b))) with (Int b).
    rewrite strict_neq_Int.
    destruct (Z.eqb_spec b 0) as [E | _]; [contradiction |]. cbn [negb].
    rewrite (euclid_body_Vars_of (zinit 0 b)) by exact Hb.
    unfold zbody, zinit. cbn [zrOld zr zsOld zs ztOld zt].
    rewrite Z.div_0_l by exact Hb.
    replace (0 - 0 * b) with 0 by ring.
    destruct fuel; reflexivity.
Qed.

Lemma extendedEuclid_zero_argument_witness :
  isNaN NegInf = false /\ -5 <> 0
  /\ extendedEuclid 0 NegInf (Int 0)
     = Returned {| coefA := Int 1; coefB := Int 0; gcd := NegInf;
                   quotientA := Int 1; quotientB := Int 0 |}
  /\ extendedEuclid 1 (Int 0) (Int (-5))
     = Returned {| coefA := Int 0; coefB := Int 1; gcd := Int (-5);
                   quotientA := Int 0; quotientB := Int 1 |}.
Proof.
  assert (H1 : isNaN NegInf = false) by reflexivity.
  assert (H2 : -5 <> 0) by discriminate.
  split; [exact H1 |]. split; [exact H2 |].
  exact (extendedEuclid_zero_argument 0 NegInf (-5) H1 H2).
Defined.



(** ** More on [iteratedEuclid] *)

(** The loop of [iteratedEuclid] through a run of integers, with more
    elements to come. *)
Lemma iteratedEuclid_loop_prefix (pre : list Z) :
  forall (tail : list number) (g : Z) (cs : list Z) (fuel : nat),
    (euclid_budget pre <= fuel)%nat ->
    exists (g' : Z) (cs' : list Z),
      iteratedEuclid_loop fuel (map Int pre ++ tail) (Some (Int g))
        (map Int cs)
      = iteratedEuclid_loop fuel tail (Some (Int g')) (map Int cs').
Proof.
  induction pre as [| x pre IH]; intros tail g cs fuel Hfuel.
  - exists g, cs. reflexivity.
  - cbn [euclid_budget fold_right] in Hfuel.
    fold (euclid_budget pre) in Hfuel.
    destruct (extendedEuclid_Int g x) as (z & _ & _ & Hev).
    cbn [map app iteratedEuclid_loop].
    rewrite (Hev fuel) by lia. cbn [bind result_of coefA coefB gcd].
    rewrite map_Int_scale.
    change [Int (ztOld z)] with (map Int [ztOld z]).
    rewrite <- map_app. apply IH. lia.
Qed.



(** ** More on [binomial] *)

Lemma binomial_loop_prefix (fuel : nat) :
  forall (table : list (list number)) (n : nat),
    exists more : list (list number),
      binomial_loop fuel table n = table ++ more.
Proof.
  induction fuel as [| fuel IH]; intros table n; cbn [binomial_loop];
    destruct (length table <=? n)%nat;
    try (exists []; now rewrite app_nil_r).
  destruct (IH (binomial_body table) n) as (more & ->).
  unfold binomial_body. rewrite <- app_assoc. eauto.
Qed.

Lemma binomial_loop_length (fuel : nat) :
  forall (table : list (list number)) (n : nat),
    (n < length table + fuel)%nat ->
    length (binomial_loop fuel table n) = Nat.max (length table) (S n).
Proof.
  induction fuel as [| fuel IH]; intros table n Hn; cbn [binomial_loop];
    destruct (Nat.leb_spec (length table) n) as [Hle | Hlt]; try lia.
  rewrite IH; unfold binomial_body; rewrite length_app; cbn [length]; lia.
Qed.

Lemma binomial_value (table : list (list number)) (n k : nat) :
  pascal_table table ->
  fst (binomial table n k)
  = if (k <=? n)%nat then Some (Int (Z.of_nat (choose n k))) else None.
Proof.
  intros Htab. destruct (Nat.leb_spec k n) as [Hk | Hk].
  - apply binomial_choose; assumption.
  - unfold binomial. cbn [fst].
    destruct (binomial_loop_pascal (S n) table n Htab ltac:(lia))
      as [[_ Hp] Hlen].
    rewrite Hp.
    rewrite (nth_indep _ [] (pascal_row 0))
      by (rewrite length_map, length_seq; lia).
    rewrite (map_nth pascal_row), seq_nth by lia. cbn [Nat.add].
    apply nth_error_None. unfold pascal_row.
    rewrite length_map, length_seq. lia.
Qed.



Lemma choose_sym (n : nat) :
  forall k : nat, (k <= n)%nat -> choose n k = choose n (n - k).
Proof.
  induction n as [| n IH]; intros k Hk.
  - assert (k = 0%nat) as -> by lia. reflexivity.
  - destruct k as [| k].
    + rewrite Nat.sub_0_r, choose_diag. reflexivity.
    + destruct (Nat.eq_dec k n) as [-> | Hne].
      * rewrite Nat.sub_diag, choose_diag. reflexivity.
      * replace (S n - S k)%nat with (S (n - S k)) by lia.
        cbn [choose].
        rewrite (IH k) by lia. rewrite (IH (S k)) by lia.
        replace (n - k)%nat with (S (n - S k)) by lia. lia.
Qed.

(** X22.  The values are symmetric in a row: [binomial(n, k)] is
    [binomial(n, n - k)] for [k <= n], from every state of the table. *)
Theorem binomial_symmetric (table : list (list number)) (n k : nat) :
  pascal_table table -> (k <= n)%nat ->
  fst (binomial table n k) = fst (binomial table n (n - k)).
Proof.
  intros Htab Hk. rewrite !binomial_value by assumption.
  destruct (Nat.leb_spec k n); [| lia].
  destruct (Nat.leb_spec (n - k) n); [| lia].
  now rewrite (choose_sym n k Hk).
Qed.

Lemma binomial_symmetric_witness :
  pascal_table BINOMIALS /\ (3 <= 12)%nat
  /\ fst (binomial BINOMIALS 12 3) = Some (Int 220)
  /\ fst (binomial BINOMIALS 12 3) = fst (binomial BINOMIALS 12 (12 - 3)).
Proof.
  pose proof pascal_table_BINOMIALS as H0.
  assert (H1 : (3 <= 12)%nat) by lia.
  split; [exact H0 |]. split; [exact H1 |].
  split; [exact (proj1 (binomial_choose BINOMIALS 12 3 H0 H1)) |].
  exact (binomial_symmetric BINOMIALS 12 3 H0 H1).
Defined.

(* ================================================================== *)
(** * Further properties of [src/combinations.ts] *)
(* ================================================================== *)

Section CombinationsMembers.
Context {A : Type}.
Implicit Types (set l c : list A) (k : Z).

Lemma subseq_In c l : subseq c l -> forall y : A, In y c -> In y l.
Proof.
  induction 1 as [| x c l _ IH | x c l _ IH]; intros y Hy.
  - contradiction.
  - right. exact (IH y Hy).
  - destruct Hy as [-> | Hy]; [left; reflexivity | right; exact (IH y Hy)].
Qed.

Lemma subseq_length c l : subseq c l -> (length c <= length l)%nat.
Proof.
  induction 1; cbn; lia.
Qed.

Lemma sublists_of_size_complete c l :
  subseq c l -> In c (sublists_of_size (length c) l).
Proof.
  induction 1 as [| x c l _ IH | x c l _ IH].
  - left. reflexivity.
  - destruct c as [| y c].
    + rewrite sublists_of_size_zero. left. reflexivity.
    + cbn [length sublists_of_size] in *. apply in_or_app. right. exact IH.
  - cbn [length sublists_of_size]. apply in_or_app. left.
    apply in_map, IH.
Qed.

Lemma In_sublists_of_size (n : nat) c l :
  In c (sublists_of_size n l) <-> subseq c l /\ length c = n.
Proof.
  split.
  - intros H.
    pose proof (proj1 (Forall_forall _ _) (sublists_of_size_sound l n) c H)
      as [Hl Hs].
    split; assumption.
  - intros [Hs <-]. apply sublists_of_size_complete, Hs.
Qed.

(** X23.  For [0 < k <= set.length] the elements of [kCombinations(set,
    k)] are exactly the arrays of length [k] that take their elements
    from [set] in order: none is missing. *)
Theorem kCombinations_In_iff set k c :
  0 < k <= array_length set ->
  (In c (kCombinations set k) <-> subseq c set /\ array_length c = k).
Proof.
  unfold array_length. intros Hk.
  rewrite <- (Z2Nat.id k) at 1 by lia.
  rewrite kCombinations_sublists by lia.
  rewrite In_sublists_of_size. split; intros [Hs Hl]; (split; [exact Hs | lia]).
Qed.

(** X24.  The elements of [combinations(set)] are exactly the non-empty
    arrays that take their elements from [set] in order. *)
Theorem combinations_In_iff set c :
  In c (combinations set) <-> c <> [] /\ subseq c set.
Proof.
  rewrite combinations_sublists, in_flat_map. split.
  - intros (n & Hn & Hc). apply in_seq in Hn.
    apply In_sublists_of_size in Hc. destruct Hc as [Hs Hl].
    split; [| exact Hs]. intros ->. cbn in Hl. lia.
  - intros [Hne Hs]. exists (length c). split.
    + apply in_seq. pose proof (subseq_length c set Hs).
      destruct c; [contradiction | cbn in *; lia].
    + apply sublists_of_size_complete, Hs.
Qed.

Lemma NoDup_map_cons (x : A) (L : list (list A)) :
  NoDup L -> NoDup (map (cons x) L).
Proof.
  induction 1 as [| c L Hc _ IH]; cbn; constructor; [| exact IH].
  intros H. apply in_map_iff in H. destruct H as (c' & E & Hc').
  injection E as ->. contradiction.
Qed.

Lemma NoDup_sublists_of_size l :
  NoDup l -> forall n : nat, NoDup (sublists_of_size n l).
Proof.
  induction 1 as [| x l Hx _ IH]; intros [| n]; cbn [sublists_of_size].
  - repeat constructor. intros [].
  - constructor.
  - repeat constructor. intros [].
  - apply NoDup_app.
    + apply NoDup_map_cons, IH.
    + apply IH.
    + intros c H1 H2. apply in_map_iff in H1. destruct H1 as (c' & <- & _).
      apply In_sublists_of_size in H2. destruct H2 as [Hs _].
      apply Hx. apply (subseq_In _ _ Hs). left. reflexivity.
Qed.

Lemma NoDup_flat_map_sublists l (ns : list nat) :
  NoDup l -> NoDup ns ->
  NoDup (flat_map (fun n => sublists_of_size n l) ns).
Proof.
  intros Hl. induction 1 as [| n ns Hn _ IH]; cbn [flat_map].
  - constructor.
  - apply NoDup_app; [apply NoDup_sublists_of_size, Hl | exact IH |].
    intros c H1 H2. apply In_sublists_of_size in H1. destruct H1 as [_ H1].
    apply in_flat_map in H2. destruct H2 as (m & Hm & H2).
    apply In_sublists_of_size in H2. destruct H2 as [_ H2].
    apply Hn. congruence.
Qed.

(** X25.  When the elements of [set] are pairwise distinct, no
    combination is produced twice, neither by [kCombinations] (for any
    [k]) nor by [combinations]. *)
Theorem combinations_NoDup set k :
  NoDup set ->
  NoDup (kCombinations set k) /\ NoDup (combinations set).
Proof.
  intros Hset. split.
  - destruct (Z_lt_le_dec 0 k) as [Hpos | Hneg];
      [destruct (Z_le_gt_dec k (array_length set)) as [Hle | Hgt] |].
    + unfold array_length in Hle.
      rewrite <- (Z2Nat.id k) by lia.
      rewrite kCombinations_sublists by lia.
      apply NoDup_sublists_of_size, Hset.
    + rewrite kCombinations_eq.
      destruct (Z.gtb_spec k (array_length set)); [constructor | lia].
    + rewrite kCombinations_eq.
      destruct (Z.gtb_spec k (array_length set)); [constructor |].
      destruct (Z.leb_spec k 0); [constructor | lia].
  - rewrite combinations_sublists.
    apply NoDup_flat_map_sublists; [exact Hset | apply seq_NoDup].
Qed.

Lemma StronglySorted_app (R : list A -> list A -> Prop)
    (l1 l2 : list (list A)) :
  StronglySorted R l1 -> StronglySorted R l2 ->
  (forall x y, In x l1 -> In y l2 -> R x y) ->
  StronglySorted R (l1 ++ l2).
Proof.
  induction 1 as [| x l1 Hs IH Hx]; intros H2 H12; [exact H2 |].
  cbn [app]. constructor.
  - apply IH; [exact H2 |]. intros a b Ha Hb. apply H12; [right |]; assumption.
  - apply Forall_app. split; [exact Hx |].
    apply Forall_forall. intros y Hy. apply H12; [left; reflexivity | exact Hy].
Qed.

Lemma StronglySorted_same_length (n : nat) (L : list (list A)) :
  Forall (fun c => length c = n) L ->
  StronglySorted (fun c1 c2 => (length c1 <= length c2)%nat) L.
Proof.
  induction 1 as [| c L Hc HL IH]; constructor; [exact IH |].
  eapply Forall_impl; [| exact HL]. cbn. intros c' Hc'. lia.
Qed.

(** X26.  [combinations(set)] lists the combinations by size: an element
    is never longer than one that comes after it. *)
Theorem combinations_sorted_by_size set :
  StronglySorted (fun c1 c2 => (length c1 <= length c2)%nat)
                 (combinations set).
Proof.
  rewrite combinations_sublists.
  generalize 1%nat. induction (length set) as [| m IH]; intros a.
  - constructor.
  - cbn [seq flat_map]. apply StronglySorted_app.
    + apply (StronglySorted_same_length a).
      eapply Forall_impl; [| apply sublists_of_size_sound].
      intros c [Hl _]. exact Hl.
    + apply IH.
    + intros x y Hx Hy. apply In_sublists_of_size in Hx.
      apply in_flat_map in Hy. destruct Hy as (n & Hn & Hy).
      apply in_seq in Hn. apply In_sublists_of_size in Hy. lia.
Qed.
End CombinationsMembers.

Lemma kCombinations_In_iff_witness :
  (0 < 2 <= array_length [1; 2; 3])
  /\ subseq [1; 3] [1; 2; 3]
  /\ In [1; 3] (kCombinations [1; 2; 3] 2)
  /\ ~ In [3; 1] (kCombinations [1; 2; 3] 2).
Proof.
  assert (H0 : 0 < 2 <= array_length [1; 2; 3]) by (cbn; lia).
  assert (H1 : subseq [1; 3] [1; 2; 3]) by (repeat constructor).
  split; [exact H0 |]. split; [exact H1 |]. split.
  - apply (proj2 (kCombinations_In_iff [1; 2; 3] 2 [1; 3] H0)).
    split; [exact H1 | reflexivity].
  - intros H.
    apply (proj1 (kCombinations_In_iff [1; 2; 3] 2 [3; 1] H0)) in H.
    destruct H as [Hs _].
    repeat match goal with
           | Hs' : subseq _ _ |- _ => inversion Hs'; clear Hs'; subst
           end.
Defined.

Lemma combinations_NoDup_witness :
  NoDup [1; 2; 3]
  /\ NoDup (kCombinations [1; 2; 3] 2) /\ NoDup (combinations [1; 2; 3]).
Proof.
  assert (H0 : NoDup [1; 2; 3]).
  { repeat constructor; cbn; intuition discriminate. }
  split; [exact H0 | exact (combinations_NoDup [1; 2; 3] 2 H0)].
Defined.

(* ================================================================== *)
(** * Further properties of the periodic distance *)
(* ================================================================== *)

Lemma Qmod_shift (x p : Q) (k : Z) :
  (0 < p)%Q -> (Qmod (x + p * inject_Z k) p == Qmod x p)%Q.
Proof.
  intros Hp. destruct (Qmod_range x p Hp) as [Hlo Hhi].
  apply (Qmod_unique _ _ _ (Qfloor (x / p) + k)); [exact Hp | | exact Hlo | exact Hhi].
  rewrite inject_Z_plus. unfold Qmod. ring.
Qed.




